(** * serverless-s3-sync: the plugin's [sync] and [clear] hooks

    A shallow embedding of [index.js] (class [ServerlessS3Sync]) and the
    properties of its configuration handling, per-file parameter
    resolution and progress reporting.

    JavaScript values of the service configuration are an inductive
    type; the object handed to the S3 client is a record; the console
    and the S3 client are observed through a trace of effects; code that
    can throw returns a [result]. *)

From Stdlib Require Import ZArith QArith Qround Lia Ascii String.
From Stdlib Require Import Floats.PrimFloat Floats.SpecFloat Floats.FloatOps.
From Stdlib Require Import Floats.FloatAxioms.
From Stdlib Require Uint63.
From stdpp Require Import base option list sorting gmap strings pretty.

Set Warnings "-register-all".

Local Open Scope string_scope.
Local Open Scope Z_scope.

(** ** JavaScript strings *)

(** A JavaScript string is held as the bytes of its UTF-8 encoding (a
    surrogate that stands alone as the three bytes of its code point).
    Equality and concatenation are those of the byte strings; indexing
    goes by UTF-16 code units, which [code_units] cuts out: one unit for a
    sequence of one to three bytes, the two surrogates for a sequence of
    four. *)
Definition continuation (c : ascii) : bool :=
  let n := N_of_ascii c in (128 <=? n)%N && (n <? 192)%N.

Definition unit_bytes (u : N) : string :=
  String (ascii_of_N (224 + N.shiftr u 12))
    (String (ascii_of_N (128 + N.land (N.shiftr u 6) 63))
       (String (ascii_of_N (128 + N.land u 63)) EmptyString)).

Definition surrogates (b0 b1 b2 b3 : ascii) : list string :=
  let cp := (N.shiftl (N.land (N_of_ascii b0) 7) 18
             + N.shiftl (N.land (N_of_ascii b1) 63) 12
             + N.shiftl (N.land (N_of_ascii b2) 63) 6
             + N.land (N_of_ascii b3) 63)%N in
  let c := (cp - 65536)%N in
  [unit_bytes (55296 + N.shiftr c 10); unit_bytes (56320 + N.land c 1023)].

Fixpoint code_units_of (bytes : list ascii) : list string :=
  match bytes with
  | [] => []
  | b0 :: rest =>
      let n := N_of_ascii b0 in
      match rest with
      | b1 :: ((b2 :: ((b3 :: rest3) as rest2)) as rest1) =>
          if (240 <=? n)%N && (n <? 248)%N
             && continuation b1 && continuation b2 && continuation b3
          then (surrogates b0 b1 b2 b3 ++ code_units_of rest3)%list
          else if (224 <=? n)%N && (n <? 240)%N
                  && continuation b1 && continuation b2
          then String b0 (String b1 (String b2 EmptyString))
               :: code_units_of rest2
          else if (192 <=? n)%N && (n <? 224)%N && continuation b1
          then String b0 (String b1 EmptyString) :: code_units_of rest1
          else String b0 EmptyString :: code_units_of rest
      | b1 :: ((b2 :: rest2) as rest1) =>
          if (224 <=? n)%N && (n <? 240)%N
             && continuation b1 && continuation b2
          then String b0 (String b1 (String b2 EmptyString))
               :: code_units_of rest2
          else if (192 <=? n)%N && (n <? 224)%N && continuation b1
          then String b0 (String b1 EmptyString) :: code_units_of rest1
          else String b0 EmptyString :: code_units_of rest
      | b1 :: rest1 =>
          if (192 <=? n)%N && (n <? 224)%N && continuation b1
          then String b0 (String b1 EmptyString) :: code_units_of rest1
          else String b0 EmptyString :: code_units_of rest
      | [] => [String b0 EmptyString]
      end
  end.

Definition code_units (s : string) : list string :=
  code_units_of (String.list_ascii_of_string s).

(** ** JavaScript values *)

(** The values a parsed service configuration (and the CLI options) can
    hold: plain data, with the standard prototypes.  [VObj props] lists
    the own enumerable properties of an object, each key once, in the
    order [Object.keys] enumerates them.  A key [__proto__] in the list
    is an own data property, as a parser creates it. *)
Inductive value : Type :=
| VUndefined
| VNull
| VBool (b : bool)
| VNum (x : float)
| VStr (s : string)
| VArr (xs : list value)
| VObj (props : list (string * value)).

(** What a [throw] carries: the engine's own [TypeError], or the value of
    a [throw] statement of the program. *)
Inductive exn : Type :=
| TypeError
| Thrown (v : value).

Inductive result (A : Type) : Type :=
| Ok (a : A)
| Throw (e : exn).
Arguments Ok {A} a.
Arguments Throw {A} e.

#[global] Instance result_ret : MRet result := fun A a => Ok a.
#[global] Instance result_bind : MBind result := fun A B f r =>
  match r with
  | Ok a => f a
  | Throw e => Throw e
  end.

(** ToBoolean. *)
Definition truthy (v : value) : bool :=
  match v with
  | VUndefined | VNull => false
  | VBool b => b
  | VNum x => negb (PrimFloat.eqb x PrimFloat.zero || PrimFloat.is_nan x)
  | VStr s => negb (String.eqb s "")
  | VArr _ | VObj _ => true
  end.

(** [a || b]. *)
Definition js_or (a b : value) : value := if truthy a then a else b.

(** [a === b].  The one strict comparison of the program is between a
    value of the service configuration and a CLI option; two objects (or
    arrays) are equal only when they are the same object, which these two
    never are. *)
Definition strict_equals (a b : value) : bool :=
  match a, b with
  | VUndefined, VUndefined => true
  | VNull, VNull => true
  | VBool x, VBool y => Bool.eqb x y
  | VNum x, VNum y => PrimFloat.eqb x y
  | VStr x, VStr y => String.eqb x y
  | _, _ => false
  end.

Definition isArray (v : value) : bool :=
  match v with
  | VArr _ => true
  | _ => false
  end.

Definition nullish (v : value) : bool :=
  match v with
  | VUndefined | VNull => true
  | _ => false
  end.

(** Own enumerable string-keyed properties, in enumeration order: the
    indices of an array or of a string (by code unit), the properties of
    an object, none for a boolean or a number. *)
Definition own_props (v : value) : list (string * value) :=
  match v with
  | VObj props => props
  | VArr xs => imap (fun i x => (pretty i, x)) xs
  | VStr s => imap (fun i u => (pretty i, VStr u)) (code_units s)
  | _ => []
  end.

(** [Object.keys(v)]: throws on [undefined] and [null]. *)
Definition Object_keys (v : value) : result (list string) :=
  if nullish v then Throw TypeError else Ok (map fst (own_props v)).

(** The binding of [k] in a property list (on a list that names a key
    more than once, the last one). *)
Fixpoint lookup_prop (props : list (string * value)) (k : string)
  : option value :=
  match props with
  | [] => None
  | (k', v) :: rest =>
      match lookup_prop rest k with
      | Some w => Some w
      | None => if String.eqb k' k then Some v else None
      end
  end.

(** [v[k]] on a value other than [undefined] and [null], for the keys
    this program reads: an own enumerable property if there is one,
    [undefined] otherwise (none of the keys read here is found further up
    a prototype chain). *)
Definition read (v : value) (k : string) : value :=
  default VUndefined (lookup_prop (own_props v) k).

(** [v[k]]: reading a property of [undefined] or [null] throws. *)
Definition get (v : value) (k : string) : result value :=
  if nullish v then Throw TypeError else Ok (read v k).

(** Whether [k] is an own property, for the keys this program asks for
    (none of them is the [length] of a string or an array, the one own
    property that is not enumerable). *)
Definition has_own (v : value) (k : string) : bool :=
  bool_decide (is_Some (lookup_prop (own_props v) k)).

(** [v.hasOwnProperty(k)].  The method is looked up on [v]: it is
    [Object.prototype.hasOwnProperty] unless [v] has an own property of
    that name, which, being data, cannot be called. *)
Definition hasOwnProperty (v : value) (k : string) : result bool :=
  if nullish v then Throw TypeError
  else if has_own v "hasOwnProperty" then Throw TypeError
  else Ok (has_own v k).

(** ** The object [getS3Params] builds *)

(** What an object created by [{}] can have for a prototype afterwards:
    [Object.prototype], [null], or a value of the configuration (an
    object or an array). *)
Inductive prototype : Type :=
| Object_prototype
| Null_prototype
| Value_prototype (v : value).

Record object : Type := {
  own : gmap string value;
  proto : prototype
}.

(** [{}]. *)
Definition empty_object : object := {| own := ∅; proto := Object_prototype |}.

(** The setter of [Object.prototype.__proto__]: an object, an array or
    [null] becomes the prototype, any other value is ignored. *)
Definition set_prototype (o : object) (v : value) : object :=
  match v with
  | VObj _ | VArr _ => {| own := own o; proto := Value_prototype v |}
  | VNull => {| own := own o; proto := Null_prototype |}
  | _ => o
  end.

(** Whether the [__proto__] accessor of [Object.prototype] is what a
    lookup of [__proto__] finds from this prototype on: not under a
    [null] prototype, nor behind a prototype with an own data property
    of that name. *)
Definition reaches_accessor (p : prototype) : bool :=
  match p with
  | Object_prototype => true
  | Null_prototype => false
  | Value_prototype v => negb (has_own v "__proto__")
  end.

(** [o[k] = v]: an own data property is created or updated, except that
    [__proto__], when it is not an own property and the accessor is
    reached, goes to the setter. *)
Definition object_set (o : object) (k : string) (v : value) : object :=
  if String.eqb k "__proto__"
     && negb (bool_decide (is_Some (own o !! k)))
     && reaches_accessor (proto o)
  then set_prototype o v
  else {| own := <[k := v]> (own o); proto := proto o |}.

(** [o[k]] and [k in o], for a key that [Object.prototype] and
    [Array.prototype] do not have (the program reads [OnlyForEnv]). *)
Definition object_get (o : object) (k : string) : value :=
  match own o !! k with
  | Some v => v
  | None =>
      match proto o with
      | Value_prototype v => read v k
      | _ => VUndefined
      end
  end.


(** [delete o[k]]: only an own property goes. *)
Definition object_delete (o : object) (k : string) : object :=
  {| own := delete k (own o); proto := proto o |}.

(** [Object.assign(target, source)]: every own enumerable property of the
    source is set on the target, in order; [undefined] and [null]
    sources are ignored. *)
Definition Object_assign (target : object) (source : value) : object :=
  foldl (fun t kv => object_set t kv.1 kv.2) target (own_props source).

(** [Array.prototype.forEach] with a callback that updates the variables
    it closes over ([st]) and may throw. *)
Fixpoint forEach {A S} (f : S -> A -> result S) (xs : list A) (st : S)
  : result S :=
  match xs with
  | [] => Ok st
  | x :: rest => st' ← f st x; forEach f rest st'
  end.

(** What a template literal and a property access make of a key that may
    be [undefined]. *)
Definition key_string (k : option string) : string := default "undefined" k.

(** ** The S3 client's requests and the effects of the plugin *)

Module S3Params.
Record t : Type := { Bucket : value; Prefix : value; ACL : value }.
End S3Params.

Module DeleteDir.
Record t : Type := { Bucket : value; Prefix : value }.
End DeleteDir.

(** The [params] object handed to [uploadDir].  [getS3Params] answers
    through its callback: [Ok None] is [cb(null, null)], [Ok (Some p)] is
    [cb(null, p)].  [defaultContentType] is a key of the object only when
    the target defines one. *)
Record uploadDirParams : Type := {
  maxAsyncS3 : Z;
  localDir : string;
  deleteRemoved : value;
  followSymlinks : value;
  getS3Params : string -> result (option object);
  s3Params : S3Params.t;
  defaultContentType : option value
}.

Inductive effect : Type :=
| consoleLog (line : string)
| printDot
| client
| uploadDir (params : uploadDirParams)
| deleteDir (params : DeleteDir.t).

(** A run of synchronous code: the effects it had, in order, and how it
    ended. *)
Record prog (A : Type) : Type := Prog {
  trace : list effect;
  outcome : result A
}.
Arguments Prog {A} trace outcome.
Arguments trace {A} p.
Arguments outcome {A} p.

#[global] Instance prog_ret : MRet prog := fun A a => Prog [] (Ok a).
#[global] Instance prog_bind : MBind prog := fun A B f m =>
  match outcome m with
  | Ok a => Prog (trace m ++ trace (f a)) (outcome (f a))
  | Throw e => Prog (trace m) (Throw e)
  end.

Definition emit (e : effect) : prog unit := Prog [e] (Ok tt).
Definition lift {A} (r : result A) : prog A := Prog [] r.

(** A promise made by [new Promise(executor)] in the [map] callback of
    [sync]: the executor has started an upload, or it has thrown, which
    leaves the promise rejected. *)
Inductive job : Type :=
| Started (params : uploadDirParams)
| Rejected (reason : exn).

Definition started (jobs : list job) : list uploadDirParams :=
  omap (fun j => match j with Started p => Some p | Rejected _ => None end) jobs.

Definition rejection (jobs : list job) : option exn :=
  head (omap (fun j => match j with Started _ => None | Rejected e => Some e end)
          jobs).

(** What [sync] and [clear] return: [Promise.resolve()], or
    [Promise.all(promises).then(callback)] over the jobs started, with
    the effects of the callback; when one of the promises is rejected
    from the start, so is the promise of all, with the reason of the
    first, and the callback is never run. *)
Inductive promise (J : Type) : Type :=
| Promise_resolve
| Promise_all_then (jobs : list J) (callback : list effect)
| Promise_all_rejected (jobs : list J) (reason : exn).
Arguments Promise_resolve {J}.
Arguments Promise_all_then {J} jobs callback.
Arguments Promise_all_rejected {J} jobs reason.

Definition messagePrefix : string := "S3 Sync: ".

(** ** The plugin *)

(** The variables the [map] callback of [sync] has set when it reaches
    [new Promise]. *)
Module Settings.
Record t : Type := {
  bucketPrefix : value;
  acl : value;
  followSymlinks : value;
  defaultContentType : value;
  bucketName : value;
  localDir : value;
  deleteRemoved : value
}.
End Settings.

Module ServerlessS3Sync.
Section WithHost.

(** The libraries the plugin calls: [minimatch(path, pattern)],
    [path.resolve], the two [chalk] colours and the engine's printing of
    a number. *)
Variable minimatch : string -> string -> bool.
Variable path_resolve : string -> string.
Variable chalk_red chalk_yellow : string -> string.
Variable Number_toString : float -> string.

(** [this.servicePath] and [this.options.env], as the host supplies
    them. *)
Variable servicePath : string.
Variable env : value.

(** ToString.  An object prints as ["[object Object]"] through
    [Object.prototype.toString], unless it has an own [toString]
    property: being data, that one cannot be called, [valueOf] gives back
    the object, and the conversion throws.  An array prints its elements
    joined by commas. *)
Fixpoint ToString (v : value) : result string :=
  match v with
  | VUndefined => Ok "undefined"
  | VNull => Ok "null"
  | VBool b => Ok (if b then "true" else "false")
  | VNum x => Ok (Number_toString x)
  | VStr s => Ok s
  | VArr xs =>
      match
        (fix elements (xs : list value) : result (list string) :=
           match xs with
           | [] => Ok []
           | x :: rest =>
               match (if nullish x then Ok "" else ToString x) with
               | Ok s =>
                   match elements rest with
                   | Ok ss => Ok (s :: ss)
                   | Throw e => Throw e
                   end
               | Throw e => Throw e
               end
           end) xs
      with
      | Ok ss => Ok (String.concat "," ss)
      | Throw e => Throw e
      end
  | VObj _ => if has_own v "toString" then Throw TypeError
              else Ok "[object Object]"
  end.

(** [Array.prototype.join], which prints [undefined] and [null] elements
    as the empty string and the others by ToString, from left to
    right. *)
Fixpoint join_elements (xs : list value) : result (list string) :=
  match xs with
  | [] => Ok []
  | x :: rest =>
      s ← (if nullish x then Ok "" else ToString x);
      ss ← join_elements rest;
      Ok (s :: ss)
  end.

Definition join (sep : string) (xs : list value) : result string :=
  ss ← join_elements xs; Ok (String.concat sep ss).

(** *** [getS3Params] *)

(** The body of the [forEach] callback over [s.params]; the pair is
    the two variables it updates, [s3Params] and [onlyForEnv]. *)
Definition forEach_param (localFile localDir : string)
    (acc : object * value) (param : value) : result (object * value) :=
  keys ← Object_keys param;
  let glob := key_string (keys !! 0%nat) in
  if minimatch localFile (path_resolve localDir ++ "/" ++ glob) then
    rule ← get param glob;
    let s3Params := Object_assign acc.1 (js_or rule (VObj [])) in
    Ok (s3Params, js_or (object_get s3Params "OnlyForEnv") acc.2)
  else Ok acc.

(** The state of [s3Params] and [onlyForEnv] when the [if] at the end of
    [getS3Params] is reached. *)
Definition resolve_params (s : value) (localDir localFile : string)
  : result (object * value) :=
  params ← get s "params";
  match params with
  | VArr rules =>
      acc ← forEach (forEach_param localFile localDir) rules
              (empty_object, VUndefined);
      Ok (object_delete acc.1 "OnlyForEnv", acc.2)
  | _ => Ok (empty_object, VUndefined)
  end.

Definition getS3Params_of (s : value) (localDir localFile : string)
  : result (option object) :=
  acc ← resolve_params s localDir localFile;
  if truthy acc.2 && negb (strict_equals acc.2 env)
  then Ok None
  else Ok (Some acc.1).

(** *** [sync] *)

(** [s.hasOwnProperty(k) ? s[k] : dflt]. *)
Definition own_or (s : value) (k : string) (dflt : value) : result value :=
  b ← hasOwnProperty s k;
  if b : bool then get s k else Ok dflt.

(** The [map] callback of [sync] up to [new Promise]: what it throws
    here, [sync] throws. *)
Definition sync_settings (s : value) : result Settings.t :=
  bucketPrefix ← own_or s "bucketPrefix" (VStr "");
  acl ← own_or s "acl" (VStr "private");
  followSymlinks ← own_or s "followSymlinks" (VBool false);
  defaultContentType ← own_or s "defaultContentType" VUndefined;
  bucketName ← get s "bucketName";
  s_localDir ← get s "localDir";
  if negb (truthy bucketName) || negb (truthy s_localDir)
  then Throw (Thrown (VStr "Invalid custom.s3Sync"))
  else
    deleteRemoved ← own_or s "deleteRemoved" (VBool true);
    Ok {| Settings.bucketPrefix := bucketPrefix;
          Settings.acl := acl;
          Settings.followSymlinks := followSymlinks;
          Settings.defaultContentType := defaultContentType;
          Settings.bucketName := bucketName;
          Settings.localDir := s_localDir;
          Settings.deleteRemoved := deleteRemoved |}.

(** The executor of the promise up to the object it hands to
    [uploadDir]: what it throws here rejects the promise. *)
Definition executor_params (s : value) (st : Settings.t)
  : result uploadDirParams :=
  localDir ← join "/" [VStr servicePath; Settings.localDir st];
  Ok {| maxAsyncS3 := 5;
        localDir := localDir;
        deleteRemoved := Settings.deleteRemoved st;
        followSymlinks := Settings.followSymlinks st;
        getS3Params := getS3Params_of s localDir;
        s3Params := {| S3Params.Bucket := Settings.bucketName st;
                       S3Params.Prefix := Settings.bucketPrefix st;
                       S3Params.ACL := Settings.acl st |};
        defaultContentType :=
          match Settings.defaultContentType st with
          | VUndefined => None
          | _ => Some (Settings.defaultContentType st)
          end |}.

(** The object [uploadDir] is called with for a target, when it is. *)
Definition sync_params (s : value) : result uploadDirParams :=
  st ← sync_settings s; executor_params s st.

(** The whole [map] callback: the promise's executor runs at once, and
    calls [this.client().uploadDir(params)]. *)
Definition sync_job (s : value) : prog job :=
  st ← lift (sync_settings s);
  match executor_params s st with
  | Ok params =>
      _ ← emit client;
      _ ← emit (uploadDir params);
      mret (Started params)
  | Throw e => mret (Rejected e)
  end.

Definition synced : list effect :=
  [printDot; consoleLog ""; consoleLog (messagePrefix ++ chalk_yellow "Synced.")].

Definition sync (s3Sync : value) : prog (promise uploadDirParams) :=
  match s3Sync with
  | VArr targets =>
      _ ← emit (consoleLog (messagePrefix
                 ++ chalk_yellow "Syncing directories and S3 prefixes..."));
      promises ← mapM sync_job targets;
      mret (match rejection promises with
            | None => Promise_all_then (started promises) synced
            | Some e => Promise_all_rejected (started promises) e
            end)
  | _ =>
      _ ← emit (consoleLog (messagePrefix ++ chalk_red "No configuration found"));
      mret Promise_resolve
  end.

(** *** [clear] *)

Definition clear_job (s : value) : prog DeleteDir.t :=
  bucketPrefix ← lift (own_or s "bucketPrefix" (VStr ""));
  bucketName ← lift (get s "bucketName");
  let params := {| DeleteDir.Bucket := bucketName;
                   DeleteDir.Prefix := bucketPrefix |} in
  _ ← emit client;
  _ ← emit (deleteDir params);
  mret params.

Definition removed : list effect :=
  [printDot; consoleLog ""; consoleLog (messagePrefix ++ chalk_yellow "Removed.")].

Definition clear (s3Sync : value) : prog (promise DeleteDir.t) :=
  match s3Sync with
  | VArr targets =>
      _ ← emit (consoleLog (messagePrefix ++ chalk_yellow "Removing S3 objects..."));
      promises ← mapM clear_job targets;
      mret (Promise_all_then promises removed)
  | _ => mret Promise_resolve
  end.

End WithHost.
End ServerlessS3Sync.
(** ** Progress *)

(** [Math.round]: the nearest integer, a half rounding up. *)
Definition Math_round (x : Q) : Z := Qfloor (x + (1 # 2)).

(** [Math.round((uploader.progressAmount / uploader.progressTotal) * 10) * 10]
    read in exact arithmetic over integer counters.  The program computes
    in doubles ([current_double] and [on_progress_double] below); the two
    readings can differ when the exact product is within the rounding
    error of a double from a half-way point.  What is proved of the
    handler in this reading rests on the comparison with [percent] and,
    for the range of the deciles, on amounts between zero and the
    total. *)
Definition current (progressAmount progressTotal : Z) : Z :=
  Math_round (inject_Z progressAmount / inject_Z progressTotal * 10)%Q * 10.

(** *** The decile in double precision *)

(** The exact value of a finite double, as a fraction with a positive
    denominator (a power of two). *)
Definition double_fraction (x : float) : option (Z * Z) :=
  match Prim2SF x with
  | S754_zero _ => Some (0, 1)
  | S754_finite s m e =>
      let n := if s then Z.neg m else Z.pos m in
      Some (if 0 <=? e then (n * 2 ^ e, 1) else (n, 2 ^ (- e)))
  | _ => None
  end.

Definition negative (x : float) : bool :=
  match Prim2SF x with
  | S754_zero s | S754_finite s _ _ | S754_infinity s => s
  | S754_nan => false
  end.

(** The integer nearest to a fraction, a half going up. *)
Definition nearest (f : Z * Z) : Z := (2 * f.1 + f.2) / (2 * f.2).

(** The double that holds an integer below 2^53 in magnitude. *)
Definition number (n : Z) : float :=
  if n <? 0 then PrimFloat.opp (PrimFloat.of_uint63 (Uint63.of_Z (- n)))
  else PrimFloat.of_uint63 (Uint63.of_Z n).

(** The double [Math.round] returns for a finite [x] whose nearest
    integer is [k]: a zero of the sign of [x], [x] itself when it is an
    integer already, the double of [k] otherwise (below 2^53 then). *)
Definition rounded (x : float) (f : Z * Z) : float :=
  if nearest f =? 0 then (if negative x then neg_zero else zero)
  else if f.2 =? 1 then x
  else number (nearest f).

(** [Math.round] on doubles: NaN and the infinities are returned as they
    are. *)
Definition Math_round_double (x : float) : float :=
  match double_fraction x with
  | Some f => rounded x f
  | None => x
  end.

(** [Math.round((uploader.progressAmount / uploader.progressTotal) * 10) * 10]
    as the program computes it. *)
Definition current_double (progressAmount progressTotal : float) : float :=
  (Math_round_double (progressAmount / progressTotal * 10) * 10)%float.

(** *** The handler *)

(** The ['progress'] handler: the new value of [percent] and what it
    prints. *)
Definition on_progress (percent progressAmount progressTotal : Z)
  : Z * list effect :=
  if progressTotal =? 0 then (percent, [])
  else
    let current := current progressAmount progressTotal in
    if current >? percent then (current, [printDot]) else (percent, []).

(** The handler over the progress events of one job, each event given by
    the two counters it finds. *)
Fixpoint on_progress_all (percent : Z) (events : list (Z * Z))
  : Z * list effect :=
  match events with
  | [] => (percent, [])
  | (amount, total) :: rest =>
      let r := on_progress percent amount total in
      let r' := on_progress_all r.1 rest in
      (r'.1, (r.2 ++ r'.2)%list)
  end.

(** The decile behind each dot of a job: the value [percent] takes when
    the dot is printed. *)
Fixpoint ticks (percent : Z) (events : list (Z * Z)) : list Z :=
  match events with
  | [] => []
  | (amount, total) :: rest =>
      let r := on_progress percent amount total in
      match r.2 with
      | [] => ticks r.1 rest
      | _ :: _ => r.1 :: ticks r.1 rest
      end
  end.

(** *** The handler in double precision *)

(** The ['progress'] handler on the doubles the uploader holds, with
    [percent] a double too: [=== 0] is true of both zeros, and the
    comparison is false whenever [current] is NaN. *)
Definition on_progress_double (percent progressAmount progressTotal : float)
  : float * list effect :=
  if PrimFloat.eqb progressTotal 0 then (percent, [])
  else
    let current := current_double progressAmount progressTotal in
    if PrimFloat.ltb percent current then (current, [printDot])
    else (percent, []).

Fixpoint on_progress_double_all (percent : float) (events : list (float * float))
  : float * list effect :=
  match events with
  | [] => (percent, [])
  | (amount, total) :: rest =>
      let r := on_progress_double percent amount total in
      let r' := on_progress_double_all r.1 rest in
      (r'.1, (r.2 ++ r'.2)%list)
  end.

Fixpoint ticks_double (percent : float) (events : list (float * float))
  : list float :=
  match events with
  | [] => []
  | (amount, total) :: rest =>
      let r := on_progress_double percent amount total in
      match r.2 with
      | [] => ticks_double r.1 rest
      | _ :: _ => r.1 :: ticks_double r.1 rest
      end
  end.

(** *** The events of the uploaders *)

Inductive uploader_event : Type :=
| progress (progressAmount progressTotal : Z)
| end_
| error (err : value).

Record job_state : Type := { percent : Z; resolved : bool }.

(** The three handlers registered on an uploader; a handler that throws
    ends the process. *)
Definition on_event (j : job_state) (ev : uploader_event) : prog job_state :=
  match ev with
  | progress amount total =>
      let r := on_progress (percent j) amount total in
      Prog r.2 (Ok {| percent := r.1; resolved := resolved j |})
  | end_ => mret {| percent := percent j; resolved := true |}
  | error err => lift (Throw (Thrown err))
  end.

Record loop_state : Type := { jobs : list job_state; settled : bool }.

(** [Promise.all(promises).then(callback)]: the callback runs once, when
    every promise has resolved. *)
Definition settle (callback : list effect) (st : loop_state) : prog loop_state :=
  if negb (settled st) && forallb resolved (jobs st)
  then Prog callback (Ok {| jobs := jobs st; settled := true |})
  else mret st.

Definition deliver (callback : list effect) (st : loop_state)
    (ev : nat * uploader_event) : prog loop_state :=
  match jobs st !! ev.1 with
  | None => mret st
  | Some j =>
      j' ← on_event j ev.2;
      settle callback {| jobs := <[ev.1 := j']> (jobs st); settled := settled st |}
  end.

Fixpoint event_loop (callback : list effect) (st : loop_state)
    (events : list (nat * uploader_event)) : prog loop_state :=
  match events with
  | [] => mret st
  | ev :: rest => st' ← deliver callback st ev; event_loop callback st' rest
  end.

(** What follows the return of [sync] or [clear], for the events the
    uploaders emit, each with the index of its job among those that were
    started.  Under a promise of all that is rejected the uploaders still
    run, and no callback waits for them. *)
Definition run {J} (p : promise J) (events : list (nat * uploader_event))
  : prog loop_state :=
  match p with
  | Promise_resolve => mret {| jobs := []; settled := true |}
  | Promise_all_then js callback =>
      st ← settle callback
             {| jobs := map (fun _ => {| percent := 0; resolved := false |}) js;
                settled := false |};
      event_loop callback st events
  | Promise_all_rejected js _ =>
      event_loop []
        {| jobs := map (fun _ => {| percent := 0; resolved := false |}) js;
           settled := true |}
        events
  end.

(** ** The specification's wording, for comparison *)

(** The decile as the specification words it: the fraction rounded down
    to a multiple of ten percent. *)
Definition spec_decile (progressAmount progressTotal : Z) : Z :=
  Qfloor (inject_Z progressAmount / inject_Z progressTotal * 10)%Q * 10.

(** Modelled from the spec: the upload plan of the S3 client, which is a
    library and not part of this repository (section 4.4, step 5): of the
    files the client would upload, one for which [getS3Params] answers
    [null] is left out of the plan, and the others are uploaded with the
    parameters answered.  (An exception in [getS3Params] ends the process:
    that file is not uploaded either.) *)
Definition toUpload (params : uploadDirParams) (localFiles : list string)
  : list string :=
  filter (fun f => bool_decide (is_Some (match getS3Params params f with
                                          | Ok o => o
                                          | Throw _ => None
                                          end))) localFiles.

(** ** Sample collaborators and configurations *)

(** A small matcher for the samples: [*] stands for any run of characters
    other than [/], every other character for itself. *)
Fixpoint glob_match (pattern path : list Ascii.ascii) : bool :=
  match pattern with
  | [] => match path with [] => true | _ :: _ => false end
  | p :: pattern' =>
      if Ascii.eqb p "*"%char then
        (fix star (path : list Ascii.ascii) : bool :=
           glob_match pattern' path
           || match path with
              | [] => false
              | c :: path' => negb (Ascii.eqb c "/"%char) && star path'
              end) path
      else
        match path with
        | [] => false
        | c :: path' => Ascii.eqb p c && glob_match pattern' path'
        end
  end.

Definition sample_minimatch (path pattern : string) : bool :=
  glob_match (String.list_ascii_of_string pattern) (String.list_ascii_of_string path).

Definition sample_rules : value :=
  VArr [VObj [("*.html", VObj [("ContentType", VStr "text/html")])];
        VObj [("*.html", VObj [("ContentType", VStr "text/html; charset=utf-8");
                               ("OnlyForEnv", VStr "prod")])]].

Definition sample_target : value :=
  VObj [("bucketName", VStr "my-bucket");
        ("localDir", VStr "site");
        ("maxAsyncS3", VNum 10%float);
        ("params", sample_rules)].

Definition sample_target_no_bucket : value :=
  VObj [("localDir", VStr "assets"); ("bucketPrefix", VStr "static/")].

(** The object [sync] hands to [uploadDir] for [sample_target] when the
    service lives in [/srv]. *)
Definition sample_params (env : value) : uploadDirParams :=
  {| maxAsyncS3 := 5;
     localDir := "/srv/site";
     deleteRemoved := VBool true;
     followSymlinks := VBool false;
     getS3Params :=
       ServerlessS3Sync.getS3Params_of sample_minimatch id env sample_target "/srv/site";
     s3Params := {| S3Params.Bucket := VStr "my-bucket";
                    S3Params.Prefix := VStr "";
                    S3Params.ACL := VStr "private" |};
     defaultContentType := None |}.

(** ** Notions used in the statements *)

(** An entry whose properties can be read and whose [hasOwnProperty] is
    the method of [Object.prototype]. *)
Definition plain (s : value) : bool :=
  negb (nullish s) && negb (has_own s "hasOwnProperty").

(** A value that ToString prints: no object with an own [toString]
    property in it, nor in the arrays in it. *)
Fixpoint printable (v : value) : bool :=
  match v with
  | VArr xs => forallb (fun x => printable x) xs
  | VObj _ => negb (has_own v "toString")
  | _ => true
  end.

(** A target that [sync] starts an upload for. *)
Definition accepted (s : value) : bool :=
  plain s
  && truthy (read s "bucketName") && truthy (read s "localDir")
  && printable (read s "localDir").

(** What the [map] callback of [sync] does for a job: a client and an
    upload when the executor ran through, nothing when it threw. *)
Definition job_effects (j : job) : list effect :=
  match j with
  | Started p => [client; uploadDir p]
  | Rejected _ => []
  end.

(** The job of an entry that passes the check of line 69, given the
    object [sync] builds for an entry: an upload started with that
    object, or a promise rejected with a [TypeError] because the
    [localDir] cannot be printed. *)
Definition job_of (sync_params : value -> result uploadDirParams)
    (s : value) (j : job) : Prop :=
  match j with
  | Started p => sync_params s = Ok p
  | Rejected e => printable (read s "localDir") = false /\ e = TypeError
  end.

(** Set, as opposed to [undefined]. *)
Definition is_set (v : value) : bool :=
  match v with
  | VUndefined => false
  | _ => true
  end.

(** A target whose [bucketName] and [localDir] are both there (truthy). *)
Definition required_present (s : value) : bool :=
  truthy (read s "bucketName") && truthy (read s "localDir").

(** The glob of a rule, whether it matches a file, and the parameters the
    rule contributes when it does. *)
Definition rule_glob (param : value) : string :=
  key_string (map fst (own_props param) !! 0%nat).

Definition rule_matches (minimatch : string -> string -> bool)
    (path_resolve : string -> string) (localDir localFile : string)
    (param : value) : bool :=
  minimatch localFile (path_resolve localDir ++ "/" ++ rule_glob param).

Definition rule_source (param : value) : value :=
  js_or (read param (rule_glob param)) (VObj []).

(** The request [clear] makes for one entry of the configuration. *)
Definition clear_params (s : value) : DeleteDir.t :=
  {| DeleteDir.Bucket := read s "bucketName";
     DeleteDir.Prefix :=
       if has_own s "bucketPrefix" then read s "bucketPrefix" else VStr "" |}.

(** ** Notions used in the further properties *)

(** [s.hasOwnProperty(k) ? s[k] : dflt] on an entry on which the call
    works ([plain]). *)
Definition setting (s : value) (k : string) (dflt : value) : value :=
  if has_own s k then read s k else dflt.

(** The lines a trace sends to [consoleLog], in order. *)
Definition lines (tr : list effect) : list string :=
  omap (fun e => match e with consoleLog line => Some line | _ => None end) tr.

(** [onlyForEnv] holds [v], and [s3Params] has an own [OnlyForEnv] that
    holds [v] or something falsy: the state of the loop from a matching
    rule with a truthy [OnlyForEnv] on, as long as no later matching rule
    sets a truthy one. *)
Definition gate_kept (v : value) (acc : object * value) : Prop :=
  acc.2 = v
  /\ exists w, own acc.1 !! "OnlyForEnv" = Some w
               /\ (w = v \/ truthy w = false).

(** A target that sets every optional key, some of them to falsy values,
    and the object [sync] hands to [uploadDir] for it. *)
Definition sample_target_explicit : value :=
  VObj [("bucketName", VStr "my-bucket");
        ("localDir", VStr "public");
        ("bucketPrefix", VStr "");
        ("acl", VNull);
        ("followSymlinks", VBool true);
        ("deleteRemoved", VBool false);
        ("defaultContentType", VStr "text/plain")].

Definition sample_params_explicit : uploadDirParams :=
  {| maxAsyncS3 := 5;
     localDir := "/srv/public";
     deleteRemoved := VBool false;
     followSymlinks := VBool true;
     getS3Params :=
       ServerlessS3Sync.getS3Params_of sample_minimatch id VUndefined
         sample_target_explicit "/srv/public";
     s3Params := {| S3Params.Bucket := VStr "my-bucket";
                    S3Params.Prefix := VStr "";
                    S3Params.ACL := VNull |};
     defaultContentType := Some (VStr "text/plain") |}.


(** The parameters [getS3Params] answers for [index.html] of
    [sample_target] when the environment lets it through. *)
Definition sample_merged : object :=
  {| own := {[ "ContentType" := VStr "text/html; charset=utf-8" ]};
     proto := Object_prototype |}.

(** A target with a key named [hasOwnProperty], and one whose [localDir]
    is an object with a key named [toString]. *)
Definition sample_target_shadowed : value :=
  VObj [("bucketName", VStr "my-bucket");
        ("localDir", VStr "site");
        ("hasOwnProperty", VStr "x")].

Definition sample_target_unprintable : value :=
  VObj [("bucketName", VStr "my-bucket");
        ("localDir", VObj [("toString", VStr "site")])].




(** * Properties *)

(** ** Running synchronous code *)

Lemma plain_spec (s : value) :
  plain s = true <-> nullish s = false /\ has_own s "hasOwnProperty" = false.
Proof.
  unfold plain. rewrite andb_true_iff, !negb_true_iff. done.
Qed.

Lemma accepted_spec (s : value) :
  accepted s = true
  <-> plain s = true /\ required_present s = true
      /\ printable (read s "localDir") = true.
Proof.
  unfold accepted, required_present. rewrite !andb_true_iff. tauto.
Qed.

Lemma get_read (s : value) (k : string) :
  nullish s = false -> get s k = Ok (read s k).
Proof. intros Hs. unfold get. by rewrite Hs. Qed.

Lemma own_or_read (s : value) (k : string) (dflt : value) :
  plain s = true ->
  ServerlessS3Sync.own_or s k dflt = Ok (if has_own s k then read s k else dflt).
Proof.
  intros [Hs Hown]%plain_spec.
  unfold ServerlessS3Sync.own_or, hasOwnProperty, get. rewrite Hs, Hown. simpl.
  by destruct (has_own s k).
Qed.

Lemma own_or_not_plain (s : value) (k : string) (dflt : value) :
  plain s = false -> ServerlessS3Sync.own_or s k dflt = Throw TypeError.
Proof.
  unfold plain, ServerlessS3Sync.own_or, hasOwnProperty.
  destruct (nullish s); [done|]. by destruct (has_own s "hasOwnProperty").
Qed.

(** Runs the property reads of a plain entry. *)
Ltac run_reads :=
  repeat (first [rewrite own_or_read by done | rewrite get_read by done];
          cbn [mbind result_bind]).

Lemma mapM_prog_cons_ok {A B} (f : A -> prog B) (x : A) (l : list A) (y : B) :
  outcome (f x) = Ok y ->
  mapM f (x :: l)
  = Prog (trace (f x) ++ trace (mapM f l))
         (match outcome (mapM f l) with
          | Ok k => Ok (y :: k)
          | Throw e => Throw e
          end).
Proof.
  intros Hx. cbn [mapM]. unfold mbind, prog_bind. rewrite Hx.
  destruct (outcome (mapM f l)) as [k|e]; simpl; [|done].
  by rewrite app_nil_r.
Qed.

Lemma mapM_prog_cons_throw {A B} (f : A -> prog B) (x : A) (l : list A) (e : exn) :
  outcome (f x) = Throw e ->
  mapM f (x :: l) = Prog (trace (f x)) (Throw e).
Proof. intros Hx. cbn [mapM]. unfold mbind, prog_bind. by rewrite Hx. Qed.

(** Effects and outcome of [mapM] over a list all of whose entries run to
    the end. *)
Lemma mapM_prog_all_ok {A B} (f : A -> prog B) (l : list A) (k : list B) :
  Forall2 (fun x y => outcome (f x) = Ok y) l k ->
  mapM f l = Prog (concat (map (fun x => trace (f x)) l)) (Ok k).
Proof.
  induction 1 as [|x y l k Hx _ IH]; [done|].
  rewrite (mapM_prog_cons_ok _ _ _ _ Hx), IH. done.
Qed.

(** Effects and outcome of [mapM] when the first entry to throw comes
    after entries that run to the end: nothing after it is run. *)
Lemma mapM_prog_first_throw {A B} (f : A -> prog B)
    (pre : list A) (x : A) (post : list A) (k : list B) (e : exn) :
  Forall2 (fun x y => outcome (f x) = Ok y) pre k ->
  outcome (f x) = Throw e ->
  mapM f (pre ++ x :: post)
  = Prog (concat (map (fun x => trace (f x)) pre) ++ trace (f x)) (Throw e).
Proof.
  intros Hpre Hx. induction Hpre as [|a b l k Ha _ IH].
  - simpl. by apply mapM_prog_cons_throw.
  - rewrite <- app_comm_cons, (mapM_prog_cons_ok _ _ _ _ Ha), IH.
    simpl. by rewrite app_assoc.
Qed.

(** Induction on values, through the elements of arrays. *)
Lemma value_array_ind (P : value -> Prop) :
  P VUndefined -> P VNull -> (forall b, P (VBool b)) -> (forall x, P (VNum x)) ->
  (forall s, P (VStr s)) ->
  (forall xs, Forall P xs -> P (VArr xs)) ->
  (forall props, P (VObj props)) ->
  forall v, P v.
Proof.
  intros Hu Hn Hb Hx Hs Ha Ho. fix IH 1.
  intros [| |b|x|s|xs|props];
    [exact Hu|exact Hn|apply Hb|apply Hx|apply Hs| |apply Ho].
  apply Ha. induction xs as [|x xs IHxs]; constructor; [apply IH|exact IHxs].
Qed.

Section Properties.

Variable minimatch : string -> string -> bool.
Variable path_resolve : string -> string.
Variable chalk_red chalk_yellow : string -> string.
Variable Number_toString : float -> string.
Variable servicePath : string.
Variable env : value.

Local Abbreviation sync_settings := ServerlessS3Sync.sync_settings.
Local Abbreviation executor_params :=
  (ServerlessS3Sync.executor_params minimatch path_resolve Number_toString
     servicePath env).
Local Abbreviation sync_params :=
  (ServerlessS3Sync.sync_params minimatch path_resolve Number_toString
     servicePath env).
Local Abbreviation sync_job :=
  (ServerlessS3Sync.sync_job minimatch path_resolve Number_toString
     servicePath env).
Local Abbreviation sync :=
  (ServerlessS3Sync.sync minimatch path_resolve chalk_red chalk_yellow
     Number_toString servicePath env).
Local Abbreviation clear := (ServerlessS3Sync.clear chalk_yellow).
Local Abbreviation getS3Params_of :=
  (ServerlessS3Sync.getS3Params_of minimatch path_resolve env).
Local Abbreviation resolve_params :=
  (ServerlessS3Sync.resolve_params minimatch path_resolve).
Local Abbreviation forEach_param :=
  (ServerlessS3Sync.forEach_param minimatch path_resolve).
Local Abbreviation matches := (rule_matches minimatch path_resolve).
Local Abbreviation ToString := (ServerlessS3Sync.ToString Number_toString).
Local Abbreviation join := (ServerlessS3Sync.join Number_toString).

(** *** ToString *)

Lemma ToString_array (xs : list value) :
  ToString (VArr xs)
  = ss ← ServerlessS3Sync.join_elements Number_toString xs;
    Ok (String.concat "," ss).
Proof.
  cbn [ServerlessS3Sync.ToString]. f_equal.
Qed.

Lemma join_elements_printable (xs : list value) :
  Forall (fun v => (printable v = true -> exists s, ToString v = Ok s)
                   /\ (printable v = false -> ToString v = Throw TypeError)) xs ->
  (forallb printable xs = true ->
   exists ss, ServerlessS3Sync.join_elements Number_toString xs = Ok ss)
  /\ (forallb printable xs = false ->
      ServerlessS3Sync.join_elements Number_toString xs = Throw TypeError).
Proof.
  induction 1 as [|x xs [Hx1 Hx2] _ [IH1 IH2]]; [split; [by eexists|done]|].
  cbn [forallb ServerlessS3Sync.join_elements]. split.
  - intros [Hx Hxs]%andb_true_iff. destruct (IH1 Hxs) as [ss ->].
    destruct (nullish x); [by eexists|].
    destruct (Hx1 Hx) as [s ->]. by eexists.
  - intros [Hx|Hxs]%andb_false_iff.
    + assert (nullish x = false) as -> by (by destruct x; cbn in Hx).
      by rewrite (Hx2 Hx).
    + rewrite (IH2 Hxs).
      destruct (nullish x); [done|].
      destruct (printable x) eqn:Hx; [|by rewrite Hx2].
      by destruct (Hx1 eq_refl) as [s ->].
Qed.

(** ToString succeeds exactly on the printable values, and fails with a
    TypeError on the others. *)
Lemma ToString_printable (v : value) :
  (printable v = true -> exists s, ToString v = Ok s)
  /\ (printable v = false -> ToString v = Throw TypeError).
Proof.
  induction v as [| |b|x|s|xs IH|props] using value_array_ind;
    try (split; [by eexists|done]).
  - rewrite ToString_array. cbn [printable].
    destruct (join_elements_printable xs IH) as [H1 H2]. split.
    + intros Hp. destruct (H1 Hp) as [ss ->]. by eexists.
    + intros Hp. by rewrite (H2 Hp).
  - cbn [printable ServerlessS3Sync.ToString].
    destruct (has_own (VObj props) "toString"); split; try done. by eexists.
Qed.
(** *** What [sync] makes of one target *)

Lemma join_two (d : value) :
  nullish d = false ->
  join "/" [VStr servicePath; d]
  = s ← ToString d; Ok (servicePath ++ "/" ++ s).
Proof.
  intros Hd. unfold ServerlessS3Sync.join.
  cbn [ServerlessS3Sync.join_elements nullish mbind result_bind
       ServerlessS3Sync.ToString].
  rewrite Hd. by destruct (ServerlessS3Sync.ToString Number_toString d).
Qed.

Lemma sync_settings_not_plain (s : value) :
  plain s = false -> sync_settings s = Throw TypeError.
Proof.
  intros Hs. unfold ServerlessS3Sync.sync_settings.
  by rewrite (own_or_not_plain s "bucketPrefix").
Qed.

(** The settings read from an entry whose properties can be read. *)
Lemma sync_settings_run (s : value) :
  plain s = true ->
  sync_settings s
  = if required_present s
    then Ok {| Settings.bucketPrefix := setting s "bucketPrefix" (VStr "");
               Settings.acl := setting s "acl" (VStr "private");
               Settings.followSymlinks := setting s "followSymlinks" (VBool false);
               Settings.defaultContentType :=
                 setting s "defaultContentType" VUndefined;
               Settings.bucketName := read s "bucketName";
               Settings.localDir := read s "localDir";
               Settings.deleteRemoved := setting s "deleteRemoved" (VBool true) |}
    else Throw (Thrown (VStr "Invalid custom.s3Sync")).
Proof.
  intros Hs. pose proof Hs as [Hn _]%plain_spec.
  unfold ServerlessS3Sync.sync_settings, required_present.
  run_reads.
  destruct (truthy (read s "bucketName")), (truthy (read s "localDir"));
    cbn [negb orb andb]; done.
Qed.

Lemma sync_params_not_plain (s : value) :
  plain s = false -> sync_params s = Throw TypeError.
Proof.
  intros Hs. unfold ServerlessS3Sync.sync_params.
  by rewrite sync_settings_not_plain.
Qed.

(** The object built for an entry whose properties can be read. *)
Lemma sync_params_run (s : value) :
  plain s = true ->
  sync_params s
  = if required_present s
    then
      dir ← join "/" [VStr servicePath; read s "localDir"];
      Ok {| maxAsyncS3 := 5;
            localDir := dir;
            deleteRemoved := setting s "deleteRemoved" (VBool true);
            followSymlinks := setting s "followSymlinks" (VBool false);
            getS3Params := getS3Params_of s dir;
            s3Params :=
              {| S3Params.Bucket := read s "bucketName";
                 S3Params.Prefix := setting s "bucketPrefix" (VStr "");
                 S3Params.ACL := setting s "acl" (VStr "private") |};
            defaultContentType :=
              match setting s "defaultContentType" VUndefined with
              | VUndefined => None
              | _ => Some (setting s "defaultContentType" VUndefined)
              end |}
    else Throw (Thrown (VStr "Invalid custom.s3Sync")).
Proof.
  intros Hs. unfold ServerlessS3Sync.sync_params.
  rewrite (sync_settings_run s Hs).
  by destruct (required_present s).
Qed.

Lemma sync_params_invalid (s : value) :
  plain s = true -> required_present s = false ->
  sync_params s = Throw (Thrown (VStr "Invalid custom.s3Sync")).
Proof. intros Hs Hreq. by rewrite (sync_params_run s Hs), Hreq. Qed.

Lemma required_localDir (s : value) :
  required_present s = true -> nullish (read s "localDir") = false.
Proof.
  unfold required_present. intros [_ Hl]%andb_true_iff.
  by destruct (read s "localDir").
Qed.

Lemma sync_params_printable (s : value) :
  plain s = true -> required_present s = true ->
  printable (read s "localDir") = true ->
  exists p, sync_params s = Ok p.
Proof.
  intros Hs Hreq Hp. rewrite (sync_params_run s Hs), Hreq.
  rewrite (join_two _ (required_localDir s Hreq)).
  destruct (ToString_printable (read s "localDir")) as [H1 _].
  destruct (H1 Hp) as [dir ->]. by eexists.
Qed.

Lemma sync_params_unprintable (s : value) :
  plain s = true -> required_present s = true ->
  printable (read s "localDir") = false ->
  sync_params s = Throw TypeError.
Proof.
  intros Hs Hreq Hp. rewrite (sync_params_run s Hs), Hreq.
  rewrite (join_two _ (required_localDir s Hreq)).
  destruct (ToString_printable (read s "localDir")) as [_ H2].
  by rewrite (H2 Hp).
Qed.

Lemma sync_params_accepted (s : value) :
  (exists p, sync_params s = Ok p) <-> accepted s = true.
Proof.
  rewrite accepted_spec. split.
  - intros [p Hp].
    destruct (plain s) eqn:Hs; [|by rewrite sync_params_not_plain in Hp].
    destruct (required_present s) eqn:Hreq;
      [|by rewrite sync_params_invalid in Hp].
    destruct (printable (read s "localDir")) eqn:Hd; [done|].
    by rewrite sync_params_unprintable in Hp.
  - intros (Hs & Hreq & Hd). by apply sync_params_printable.
Qed.

Lemma sync_params_ok_plain (s : value) (p : uploadDirParams) :
  sync_params s = Ok p -> plain s = true /\ required_present s = true.
Proof.
  intros Hp.
  assert (accepted s = true) as Ha by (apply sync_params_accepted; eauto).
  apply accepted_spec in Ha as (Hs & Hreq & _). by split.
Qed.

(** *** The [map] callback of [sync] *)

Lemma sync_job_throw (s : value) (e : exn) :
  sync_settings s = Throw e -> sync_job s = Prog [] (Throw e).
Proof.
  intros Hp. unfold ServerlessS3Sync.sync_job, lift, mbind, prog_bind. simpl.
  by rewrite Hp.
Qed.

(** An entry that passes the check of line 69 gives a promise: one that
    has started an upload, or one that its executor rejected. *)
Lemma sync_job_promise (s : value) :
  plain s = true -> required_present s = true ->
  sync_job s
  = match sync_params s with
    | Ok p => Prog [client; uploadDir p] (Ok (Started p))
    | Throw e => Prog [] (Ok (Rejected e))
    end.
Proof.
  intros Hs Hreq.
  unfold ServerlessS3Sync.sync_job, ServerlessS3Sync.sync_params.
  rewrite (sync_settings_run s Hs), Hreq.
  unfold lift, mbind, prog_bind. cbn [trace outcome app result_bind].
  by destruct (ServerlessS3Sync.executor_params _ _ _ _ _ _ _).
Qed.

Lemma sync_job_ok (s : value) (p : uploadDirParams) :
  sync_params s = Ok p ->
  sync_job s = Prog [client; uploadDir p] (Ok (Started p)).
Proof.
  intros Hp. destruct (sync_params_ok_plain s p Hp) as [Hs Hreq].
  by rewrite sync_job_promise, Hp.
Qed.

Lemma sync_job_rejected (s : value) :
  plain s = true -> required_present s = true ->
  printable (read s "localDir") = false ->
  sync_job s = Prog [] (Ok (Rejected TypeError)).
Proof.
  intros Hs Hreq Hd.
  by rewrite sync_job_promise, sync_params_unprintable.
Qed.

Lemma sync_job_of (s : value) :
  plain s = true -> required_present s = true ->
  exists j, job_of sync_params s j /\ sync_job s = Prog (job_effects j) (Ok j).
Proof.
  intros Hs Hreq. destruct (printable (read s "localDir")) eqn:Hd.
  - destruct (sync_params_printable s Hs Hreq Hd) as [p Hp].
    exists (Started p). split; [done|]. by apply sync_job_ok.
  - exists (Rejected TypeError). split; [done|]. by apply sync_job_rejected.
Qed.

Lemma sync_jobs_of (targets : list value) :
  Forall (fun t => plain t = true /\ required_present t = true) targets ->
  exists jobs,
    Forall2 (job_of sync_params) targets jobs
    /\ Forall2 (fun t j => outcome (sync_job t) = Ok j) targets jobs
    /\ concat (map (fun t => trace (sync_job t)) targets)
       = concat (map job_effects jobs).
Proof.
  induction 1 as [|t l [Hs Hreq] _ (jobs & IH1 & IH2 & IH3)].
  - exists []. by repeat split; constructor.
  - destruct (sync_job_of t Hs Hreq) as (j & Hj & Hrun).
    exists (j :: jobs). repeat split; [by constructor| |].
    + constructor; [|done]. by rewrite Hrun.
    + cbn [map concat]. by rewrite IH3, Hrun.
Qed.

Lemma sync_array (targets : list value) :
  sync (VArr targets)
  = Prog (consoleLog (messagePrefix
            ++ chalk_yellow "Syncing directories and S3 prefixes...")
          :: trace (mapM sync_job targets))
         (match outcome (mapM sync_job targets) with
          | Ok promises =>
              Ok (match rejection promises with
                  | None => Promise_all_then (started promises)
                              (ServerlessS3Sync.synced chalk_yellow)
                  | Some e => Promise_all_rejected (started promises) e
                  end)
          | Throw e => Throw e
          end).
Proof.
  unfold ServerlessS3Sync.sync, mbind, prog_bind.
  cbn [emit trace outcome app].
  destruct (outcome (mapM sync_job targets)); [|done].
  cbn [mret prog_ret trace outcome]. by rewrite app_nil_r.
Qed.

Lemma clear_array (targets : list value) :
  clear (VArr targets)
  = Prog (consoleLog (messagePrefix ++ chalk_yellow "Removing S3 objects...")
          :: trace (mapM ServerlessS3Sync.clear_job targets))
         (match outcome (mapM ServerlessS3Sync.clear_job targets) with
          | Ok promises =>
              Ok (Promise_all_then promises (ServerlessS3Sync.removed chalk_yellow))
          | Throw e => Throw e
          end).
Proof.
  unfold ServerlessS3Sync.clear, mbind, prog_bind.
  cbn [emit trace outcome app].
  destruct (outcome (mapM ServerlessS3Sync.clear_job targets)); [|done].
  cbn [mret prog_ret trace outcome]. by rewrite app_nil_r.
Qed.

(** C1, as amended.  Take an array of entries on which the property
    reads of [sync] work (none is [undefined] or [null], none has a key
    named [hasOwnProperty]), and in which the first entry that misses
    [bucketName] or [localDir] comes after entries that have both.  Then
    [sync] throws ['Invalid custom.s3Sync'], and what it has done by then
    is: log its first line and, for each entry before the one at fault,
    in order, create a client and call [uploadDir] (or nothing at all,
    for an entry whose [localDir] cannot be printed, where the executor of
    the promise has thrown a [TypeError]).  No request is made for the
    entry at fault nor for any entry after it. *)
Theorem sync_fails_at_first_invalid_target
    (pre : list value) (s : value) (post : list value) :
  Forall (fun t => plain t = true /\ required_present t = true) pre ->
  plain s = true ->
  required_present s = false ->
  exists jobs,
    Forall2 (fun t j =>
               match j with
               | Started p => sync_params t = Ok p
               | Rejected e =>
                   printable (read t "localDir") = false /\ e = TypeError
               end) pre jobs
    /\ sync (VArr (pre ++ s :: post))
       = Prog (consoleLog (messagePrefix
                 ++ chalk_yellow "Syncing directories and S3 prefixes...")
               :: concat (map job_effects jobs))
              (Throw (Thrown (VStr "Invalid custom.s3Sync"))).
Proof.
  intros Hpre Hs Hreq.
  destruct (sync_jobs_of pre Hpre) as (jobs & Hjobs & Hok & Htrace).
  exists jobs. split; [done|].
  assert (sync_job s = Prog [] (Throw (Thrown (VStr "Invalid custom.s3Sync"))))
    as Hthrow.
  { apply sync_job_throw. by rewrite (sync_settings_run s Hs), Hreq. }
  rewrite sync_array.
  rewrite (mapM_prog_first_throw _ pre s post jobs _ Hok)
    by (by rewrite Hthrow).
  cbn [trace outcome]. by rewrite Hthrow, Htrace, app_nil_r.
Qed.

(** C7.  When the configuration is not an array, [sync] logs
    "No configuration found", [clear] logs nothing, neither makes a
    request to the S3 client, and both return a resolved promise. *)
Theorem no_configuration_is_a_no_op (s3Sync : value) :
  isArray s3Sync = false ->
  sync s3Sync
  = Prog [consoleLog (messagePrefix ++ chalk_red "No configuration found")]
         (Ok Promise_resolve)
  /\ clear s3Sync = Prog [] (Ok Promise_resolve).
Proof. by destruct s3Sync. Qed.

(** C8, as amended.  Whatever the target says, the object handed to
    [uploadDir] carries [maxAsyncS3 = 5]: the limit is a constant of the
    plugin. *)
Theorem maxAsyncS3_is_five (s : value) (p : uploadDirParams) :
  sync_params s = Ok p -> maxAsyncS3 p = 5.
Proof.
  intros Hp. destruct (sync_params_ok_plain s p Hp) as [Hs Hreq].
  rewrite (sync_params_run s Hs), Hreq in Hp.
  destruct (join _ _); [|done]. by injection Hp as <-.
Qed.

(** *** [clear] *)

Lemma clear_job_run (s : value) :
  plain s = true ->
  ServerlessS3Sync.clear_job s
  = Prog [client; deleteDir (clear_params s)] (Ok (clear_params s)).
Proof.
  intros Hs. pose proof Hs as [Hn _]%plain_spec.
  unfold ServerlessS3Sync.clear_job, lift, mbind, prog_bind.
  rewrite own_or_read, get_read by done. done.
Qed.

Lemma clear_job_not_plain (s : value) :
  plain s = false ->
  ServerlessS3Sync.clear_job s = Prog [] (Throw TypeError).
Proof.
  intros Hs. unfold ServerlessS3Sync.clear_job, lift, mbind, prog_bind.
  by rewrite (own_or_not_plain s "bucketPrefix").
Qed.

Lemma clear_job_outcome (s : value) :
  outcome (ServerlessS3Sync.clear_job s) = Ok (clear_params s)
  \/ outcome (ServerlessS3Sync.clear_job s) = Throw TypeError.
Proof.
  destruct (plain s) eqn:Hs.
  - left. by rewrite clear_job_run.
  - right. by rewrite clear_job_not_plain.
Qed.

Lemma clear_jobs_outcome (targets : list value) :
  (exists k, outcome (mapM ServerlessS3Sync.clear_job targets) = Ok k)
  \/ outcome (mapM ServerlessS3Sync.clear_job targets) = Throw TypeError.
Proof.
  induction targets as [|s l IH]; [left; by exists []|].
  destruct (clear_job_outcome s) as [Hs|Hs].
  - rewrite (mapM_prog_cons_ok _ _ _ _ Hs). simpl.
    destruct IH as [[k ->]| ->]; [left; by eexists|by right].
  - rewrite (mapM_prog_cons_throw _ _ _ _ Hs). by right.
Qed.

Lemma clear_jobs_run (targets : list value) :
  Forall (fun s => plain s = true) targets ->
  Forall2 (fun s r => outcome (ServerlessS3Sync.clear_job s) = Ok r)
    targets (map clear_params targets)
  /\ concat (map (fun s => trace (ServerlessS3Sync.clear_job s)) targets)
     = concat (map (fun s => [client; deleteDir (clear_params s)]) targets).
Proof.
  induction 1 as [|s l Hs _ [IH1 IH2]]; [by split; [constructor|]|].
  split.
  - constructor; [|done]. by rewrite clear_job_run.
  - cbn [map concat]. by rewrite IH2, clear_job_run.
Qed.

Lemma clear_array_started (targets : list value) :
  Forall (fun s => plain s = true) targets ->
  clear (VArr targets)
  = Prog (consoleLog (messagePrefix ++ chalk_yellow "Removing S3 objects...")
          :: concat (map (fun s => [client; deleteDir (clear_params s)]) targets))
         (Ok (Promise_all_then (map clear_params targets)
                (ServerlessS3Sync.removed chalk_yellow))).
Proof.
  intros Htargets. destruct (clear_jobs_run targets Htargets) as [Hok Htrace].
  rewrite clear_array, (mapM_prog_all_ok _ targets _ Hok).
  cbn [trace outcome]. by rewrite Htrace.
Qed.

(** C9, as amended.  [clear] never throws ['Invalid custom.s3Sync'],
    and on an array of entries on which its property reads work (none is
    [undefined] or [null], none has a key named [hasOwnProperty]) it
    calls [deleteDir] once per entry, in order, with the entry's
    [bucketName] (which may be [undefined]) as [Bucket] and its
    [bucketPrefix] (the empty string when the entry has none) as
    [Prefix], whether or not the entry has a [bucketName] and a
    [localDir]. *)
Theorem clear_does_not_validate (targets : list value) :
  Forall (fun s => plain s = true) targets ->
  clear (VArr targets)
  = Prog (consoleLog (messagePrefix ++ chalk_yellow "Removing S3 objects...")
          :: concat (map (fun s =>
                            [client;
                             deleteDir
                               {| DeleteDir.Bucket := read s "bucketName";
                                  DeleteDir.Prefix :=
                                    if has_own s "bucketPrefix"
                                    then read s "bucketPrefix"
                                    else VStr "" |}]) targets))
         (Ok (Promise_all_then (map clear_params targets)
                (ServerlessS3Sync.removed chalk_yellow)))
  /\ forall entries : list value,
       outcome (clear (VArr entries))
       <> Throw (Thrown (VStr "Invalid custom.s3Sync")).
Proof.
  intros Htargets. split.
  - by apply clear_array_started.
  - intros entries. rewrite clear_array. cbn [outcome].
    destruct (clear_jobs_outcome entries) as [[k ->]| ->]; done.
Qed.
(** *** Further properties of [sync] and [clear] on the targets *)

Lemma setting_undefined (s : value) (k : string) :
  setting s k VUndefined = read s k.
Proof.
  unfold setting, has_own, read.
  by destruct (lookup_prop (own_props s) k).
Qed.

(** The object built for a target that [sync] starts an upload for. *)
Lemma sync_params_ok_run (s : value) (p : uploadDirParams) :
  sync_params s = Ok p ->
  exists dir,
    join "/" [VStr servicePath; read s "localDir"] = Ok dir
    /\ p = {| maxAsyncS3 := 5;
              localDir := dir;
              deleteRemoved := setting s "deleteRemoved" (VBool true);
              followSymlinks := setting s "followSymlinks" (VBool false);
              getS3Params := getS3Params_of s dir;
              s3Params :=
                {| S3Params.Bucket := read s "bucketName";
                   S3Params.Prefix := setting s "bucketPrefix" (VStr "");
                   S3Params.ACL := setting s "acl" (VStr "private") |};
              defaultContentType :=
                match setting s "defaultContentType" VUndefined with
                | VUndefined => None
                | _ => Some (setting s "defaultContentType" VUndefined)
                end |}.
Proof.
  intros Hp. destruct (sync_params_ok_plain s p Hp) as [Hs Hreq].
  rewrite (sync_params_run s Hs), Hreq in Hp.
  destruct (join _ _) as [dir|]; [|done].
  exists dir. split; [done|]. by injection Hp as <-.
Qed.

(** X1.  What the [map] callback of [sync] does with one entry.  It
    builds the object for [uploadDir] exactly for an entry whose property
    reads work (it is neither [undefined] nor [null] and has no key named
    [hasOwnProperty]), whose [bucketName] and [localDir] are both truthy
    and whose [localDir] can be printed; then it creates a client and
    calls [uploadDir] with that object.  It throws a [TypeError] exactly
    on an entry whose property reads do not work, and
    ['Invalid custom.s3Sync'] exactly on an entry whose reads work and
    that misses [bucketName] or [localDir]; and it returns a promise
    rejected with a [TypeError], having called nothing, exactly on an
    entry that passes these checks and whose [localDir] cannot be
    printed. *)
Theorem sync_params_accepts_iff (s : value) :
  ((exists p, sync_params s = Ok p) <-> accepted s = true)
  /\ (forall p, sync_job s = Prog [client; uploadDir p] (Ok (Started p))
                <-> sync_params s = Ok p)
  /\ (sync_job s = Prog [] (Throw TypeError) <-> plain s = false)
  /\ (sync_job s = Prog [] (Throw (Thrown (VStr "Invalid custom.s3Sync")))
      <-> plain s = true /\ required_present s = false)
  /\ (sync_job s = Prog [] (Ok (Rejected TypeError))
      <-> plain s = true /\ required_present s = true
          /\ printable (read s "localDir") = false).
Proof.
  split; [apply sync_params_accepted|].
  destruct (plain s) eqn:Hs.
  - destruct (required_present s) eqn:Hreq.
    + destruct (printable (read s "localDir")) eqn:Hd.
      * destruct (sync_params_printable s Hs Hreq Hd) as [q Hq].
        rewrite (sync_job_ok s q Hq), Hq.
        repeat split; try done; intros; destruct_and?; try done;
          by simplify_eq.
      * rewrite (sync_job_rejected s Hs Hreq Hd),
          (sync_params_unprintable s Hs Hreq Hd).
        repeat split; try done; intros; destruct_and?; done.
    + rewrite (sync_job_throw s _ (eq_trans (sync_settings_run s Hs)
                 (f_equal (fun b : bool => if b then _ else _) Hreq))).
      rewrite (sync_params_invalid s Hs Hreq).
      repeat split; try done; intros; destruct_and?; done.
  - rewrite (sync_job_throw s _ (sync_settings_not_plain s Hs)),
      (sync_params_not_plain s Hs).
    repeat split; try done; intros; destruct_and?; done.
Qed.

(** X2.  A target that has a [bucketName] and a [localDir] and none of the
    optional keys is uploaded with prefix [""], ACL ["private"], symlinks
    not followed, removed files deleted, and no [defaultContentType] key. *)
Theorem sync_params_defaults (s : value) (p : uploadDirParams) :
  sync_params s = Ok p ->
  has_own s "bucketPrefix" = false ->
  has_own s "acl" = false ->
  has_own s "followSymlinks" = false ->
  has_own s "defaultContentType" = false ->
  has_own s "deleteRemoved" = false ->
  s3Params p = {| S3Params.Bucket := read s "bucketName";
                  S3Params.Prefix := VStr "";
                  S3Params.ACL := VStr "private" |}
  /\ followSymlinks p = VBool false
  /\ deleteRemoved p = VBool true
  /\ defaultContentType p = None.
Proof.
  intros Hp Hprefix Hacl Hsym Htype Hdel.
  destruct (sync_params_ok_run s p Hp) as (dir & _ & ->).
  unfold setting. by rewrite Hprefix, Hacl, Hsym, Htype, Hdel.
Qed.

(** X3.  An optional setting is taken from the target whenever the target
    has the key, whatever its value ([false], [null], the empty string):
    the default stands in only for a key that is absent.  The bucket is
    the target's [bucketName], and a [localDir] that is a string is put
    after the service path and a slash. *)
Theorem sync_params_own_settings (s : value) (p : uploadDirParams) :
  sync_params s = Ok p ->
  (has_own s "bucketPrefix" = true ->
   S3Params.Prefix (s3Params p) = read s "bucketPrefix")
  /\ (has_own s "acl" = true -> S3Params.ACL (s3Params p) = read s "acl")
  /\ (has_own s "followSymlinks" = true ->
      followSymlinks p = read s "followSymlinks")
  /\ (has_own s "deleteRemoved" = true ->
      deleteRemoved p = read s "deleteRemoved")
  /\ (forall v, defaultContentType p = Some v <->
                v = read s "defaultContentType" /\ v <> VUndefined)
  /\ S3Params.Bucket (s3Params p) = read s "bucketName"
  /\ (forall dir, read s "localDir" = VStr dir ->
                  localDir p = servicePath ++ "/" ++ dir).
Proof.
  intros Hp.
  destruct (sync_params_ok_run s p Hp) as (dir' & Hdir & ->).
  cbn [s3Params S3Params.Prefix S3Params.ACL S3Params.Bucket
    followSymlinks deleteRemoved defaultContentType localDir].
  rewrite setting_undefined. unfold setting.
  repeat split; try (by intros ->).
  - destruct (read s "defaultContentType"); by simplify_eq.
  - destruct (read s "defaultContentType"); by simplify_eq.
  - intros [-> Hv]. by destruct (read s "defaultContentType").
  - intros dir Hl. rewrite Hl in Hdir. by injection Hdir as <-.
Qed.

Lemma started_map_Started (l : list uploadDirParams) :
  started (map Started l) = l /\ rejection (map Started l) = None.
Proof.
  unfold started, rejection.
  induction l as [|p l [IH1 IH2]]; [done|].
  split; [|exact IH2]. simpl. f_equal. exact IH1.
Qed.

Lemma sync_jobs_started (targets : list value) :
  Forall (fun t => accepted t = true) targets ->
  exists started,
    Forall2 (fun t p => sync_params t = Ok p) targets started
    /\ Forall2 (fun t j => outcome (sync_job t) = Ok j) targets
         (map Started started)
    /\ concat (map (fun t => trace (sync_job t)) targets)
       = concat (map (fun p => [client; uploadDir p]) started).
Proof.
  induction 1 as [|t l Ht _ (started & IH1 & IH2 & IH3)].
  - exists []. by repeat split; constructor.
  - apply sync_params_accepted in Ht as [p Hp].
    exists (p :: started). repeat split; [by constructor| |].
    + constructor; [|done]. by rewrite (sync_job_ok t p Hp).
    + cbn [map concat]. by rewrite IH3, (sync_job_ok t p Hp).
Qed.

Lemma sync_array_started (targets : list value) :
  Forall (fun t => accepted t = true) targets ->
  exists started,
    Forall2 (fun t p => sync_params t = Ok p) targets started
    /\ sync (VArr targets)
       = Prog (consoleLog (messagePrefix
                 ++ chalk_yellow "Syncing directories and S3 prefixes...")
               :: concat (map (fun p => [client; uploadDir p]) started))
              (Ok (Promise_all_then started
                     (ServerlessS3Sync.synced chalk_yellow))).
Proof.
  intros Htargets.
  destruct (sync_jobs_started targets Htargets)
    as (started & Hstarted & Hok & Htrace).
  exists started. split; [done|].
  rewrite sync_array, (mapM_prog_all_ok _ targets _ Hok).
  cbn [trace outcome]. rewrite Htrace.
  destruct (started_map_Started started) as [-> ->]. done.
Qed.

(** X4.  On an array of targets that [sync] accepts (their property
    reads work, they have a [bucketName] and a [localDir], and the
    [localDir] can be printed), [sync] logs its first line, then for each
    target in turn creates a client and calls [uploadDir]; it returns the
    promise of all the jobs, and prints neither a dot nor "Synced." before
    returning. *)
Theorem sync_starts_every_target (targets : list value) :
  Forall (fun t => accepted t = true) targets ->
  exists started,
    Forall2 (fun t p => sync_params t = Ok p) targets started
    /\ sync (VArr targets)
       = Prog (consoleLog (messagePrefix
                 ++ chalk_yellow "Syncing directories and S3 prefixes...")
               :: concat (map (fun p => [client; uploadDir p]) started))
              (Ok (Promise_all_then started
                     (ServerlessS3Sync.synced chalk_yellow))).
Proof. apply sync_array_started. Qed.

(** X5.  [clear] stops with a [TypeError] at the first entry on which
    its property reads do not work (one that is [undefined] or [null], or
    has a key named [hasOwnProperty]); the [deleteDir] requests for the
    entries before it have been made by then, and none is made for the
    entries after it. *)
Theorem clear_stops_at_unreadable_entry
    (pre : list value) (s : value) (post : list value) :
  Forall (fun t => plain t = true) pre ->
  plain s = false ->
  clear (VArr (pre ++ s :: post))
  = Prog (consoleLog (messagePrefix ++ chalk_yellow "Removing S3 objects...")
          :: concat (map (fun t => [client; deleteDir (clear_params t)]) pre))
         (Throw TypeError).
Proof.
  intros Hpre Hs. rewrite clear_array.
  pose proof (clear_job_not_plain s Hs) as Hthrow.
  destruct (clear_jobs_run pre Hpre) as [Hok Htrace].
  rewrite (mapM_prog_first_throw _ pre s post _ TypeError Hok)
    by (by rewrite Hthrow).
  cbn [trace outcome]. by rewrite Hthrow, Htrace, app_nil_r.
Qed.

(** X6.  For a target that [sync] accepts, [clear] empties the very bucket
    and prefix that [sync] uploads to. *)
Theorem clear_targets_what_sync_uploads (s : value) (p : uploadDirParams) :
  sync_params s = Ok p ->
  ServerlessS3Sync.clear_job s
  = Prog [client; deleteDir (clear_params s)] (Ok (clear_params s))
  /\ DeleteDir.Bucket (clear_params s) = S3Params.Bucket (s3Params p)
  /\ DeleteDir.Prefix (clear_params s) = S3Params.Prefix (s3Params p).
Proof.
  intros Hp. destruct (sync_params_ok_plain s p Hp) as [Hs _].
  destruct (sync_params_ok_run s p Hp) as (dir & _ & ->).
  by rewrite clear_job_run.
Qed.
(** *** [Object.assign] on the object [getS3Params] builds *)

Lemma object_set_own_lookup (o : object) (k' : string) (v : value) (k : string) :
  k <> "__proto__" ->
  own (object_set o k' v) !! k = if String.eqb k' k then Some v else own o !! k.
Proof.
  intros Hk. unfold object_set.
  destruct (String.eqb_spec k' "__proto__") as [->|Hk'].
  - destruct (String.eqb_spec "__proto__" k) as [<-|_]; [done|].
    destruct (_ && _ && _).
    + by destruct v.
    + cbn [own]. by rewrite lookup_insert_ne by done.
  - cbn [andb own]. destruct (String.eqb_spec k' k) as [->|Hne].
    + by rewrite lookup_insert_eq.
    + by rewrite lookup_insert_ne.
Qed.


(** For every key but [__proto__], [Object.assign] leaves an own
    property with the source's value when the source has the key, and
    the target's own property otherwise. *)
Lemma Object_assign_lookup (target : object) (source : value) (k : string) :
  k <> "__proto__" ->
  own (Object_assign target source) !! k
  = match lookup_prop (own_props source) k with
    | Some v => Some v
    | None => own target !! k
    end.
Proof.
  intros Hk. unfold Object_assign. generalize (own_props source) as props.
  intros props. revert target.
  induction props as [|[k' v] rest IH]; intros target; [done|].
  cbn [foldl lookup_prop fst snd]. rewrite IH.
  destruct (lookup_prop rest k); [done|].
  rewrite object_set_own_lookup by done. by destruct (String.eqb k' k).
Qed.



Lemma object_get_own (o : object) (k : string) (w : value) :
  own o !! k = Some w -> object_get o k = w.
Proof. unfold object_get. by intros ->. Qed.

(** *** The loop over the rules *)

Lemma forEach_param_nullish (localFile localDir : string)
    (acc : object * value) (param : value) :
  nullish param = true ->
  forEach_param localFile localDir acc param = Throw TypeError.
Proof.
  intros Hp. unfold ServerlessS3Sync.forEach_param, Object_keys.
  by rewrite Hp.
Qed.

(** One turn of the loop on a rule that is neither [undefined] nor
    [null]. *)
Lemma forEach_param_ok (localFile localDir : string)
    (acc : object * value) (param : value) :
  nullish param = false ->
  forEach_param localFile localDir acc param
  = Ok (if matches localDir localFile param
        then (Object_assign acc.1 (rule_source param),
              js_or (object_get (Object_assign acc.1 (rule_source param))
                       "OnlyForEnv")
                    acc.2)
        else acc).
Proof.
  intros Hp.
  unfold ServerlessS3Sync.forEach_param, Object_keys, rule_matches.
  rewrite Hp. cbn [mbind result_bind]. fold (rule_glob param).
  destruct (minimatch _ _); [|done].
  by rewrite get_read.
Qed.

Lemma forEach_param_run (localFile localDir : string)
    (acc acc' : object * value) (param : value) :
  forEach_param localFile localDir acc param = Ok acc' ->
  nullish param = false
  /\ acc' = if matches localDir localFile param
           then (Object_assign acc.1 (rule_source param),
                 js_or (object_get (Object_assign acc.1 (rule_source param))
                          "OnlyForEnv")
                       acc.2)
           else acc.
Proof.
  destruct (nullish param) eqn:Hp.
  - by rewrite forEach_param_nullish.
  - rewrite forEach_param_ok by done. by intros [= <-].
Qed.

Lemma js_or_set (a b : value) :
  b = VUndefined \/ truthy b = true ->
  js_or a b = VUndefined \/ truthy (js_or a b) = true.
Proof. unfold js_or. destruct (truthy a) eqn:Ha; auto. Qed.

(** [onlyForEnv] is [undefined] or truthy all along the loop. *)
Lemma forEach_onlyForEnv_set (localFile localDir : string) (rules : list value)
    (acc acc' : object * value) :
  acc.2 = VUndefined \/ truthy acc.2 = true ->
  forEach (forEach_param localFile localDir) rules acc = Ok acc' ->
  acc'.2 = VUndefined \/ truthy acc'.2 = true.
Proof.
  revert acc. induction rules as [|param rest IH]; intros acc Hacc.
  - by intros [= <-].
  - cbn [forEach mbind result_bind].
    destruct (forEach_param localFile localDir acc param) as [acc1|] eqn:Hstep;
      [|done].
    apply forEach_param_run in Hstep as [_ ->].
    apply IH. destruct (matches _ _ _); [|done].
    by apply js_or_set.
Qed.

Lemma forEach_app {A S} (f : S -> A -> result S) (l1 l2 : list A) (st : S) :
  forEach f (l1 ++ l2) st = forEach f l1 st ≫= forEach f l2.
Proof.
  revert st. induction l1 as [|x l1 IH]; intros st; [done|].
  cbn [app forEach mbind result_bind].
  destruct (f st x); [apply IH|done].
Qed.




Lemma resolve_params_rules (s : value) (localDir localFile : string)
    (rules : list value) :
  nullish s = false ->
  read s "params" = VArr rules ->
  resolve_params s localDir localFile
  = acc ← forEach (forEach_param localFile localDir) rules
            (empty_object, VUndefined);
    Ok (object_delete acc.1 "OnlyForEnv", acc.2).
Proof.
  intros Hs Hrules. unfold ServerlessS3Sync.resolve_params.
  rewrite get_read by done. cbn [mbind result_bind]. by rewrite Hrules.
Qed.

Lemma resolve_params_no_array (s : value) (localDir localFile : string) :
  nullish s = false ->
  isArray (read s "params") = false ->
  resolve_params s localDir localFile = Ok (empty_object, VUndefined).
Proof.
  intros Hs Hrules. unfold ServerlessS3Sync.resolve_params.
  rewrite get_read by done. cbn [mbind result_bind].
  by destruct (read s "params").
Qed.

Lemma resolve_params_array (s : value) (localDir localFile : string)
    (rules : list value) (merged : object) (onlyForEnv : value) :
  read s "params" = VArr rules ->
  resolve_params s localDir localFile = Ok (merged, onlyForEnv) ->
  exists acc,
    forEach (forEach_param localFile localDir) rules (empty_object, VUndefined)
    = Ok acc
    /\ merged = object_delete acc.1 "OnlyForEnv" /\ onlyForEnv = acc.2.
Proof.
  intros Hrules.
  destruct (nullish s) eqn:Hs;
    [by unfold ServerlessS3Sync.resolve_params, get; rewrite Hs|].
  rewrite (resolve_params_rules s _ _ rules Hs Hrules).
  destruct (forEach _ _ _) as [acc|]; [|done].
  cbn [mbind result_bind]. intros [= <- <-]. by exists acc.
Qed.

Lemma resolve_params_onlyForEnv_set (s : value) (localDir localFile : string)
    (merged : object) (onlyForEnv : value) :
  resolve_params s localDir localFile = Ok (merged, onlyForEnv) ->
  onlyForEnv = VUndefined \/ truthy onlyForEnv = true.
Proof.
  unfold ServerlessS3Sync.resolve_params, get.
  destruct (nullish s); [done|]. cbn [mbind result_bind].
  destruct (read s "params") as [| | | | |rules|]; try (intros [= <- <-]; by left).
  destruct (forEach _ _ _) as [acc|] eqn:Hloop; [|done].
  cbn [mbind result_bind]. intros [= <- <-].
  eapply forEach_onlyForEnv_set; [|exact Hloop]. by left.
Qed.

Lemma sync_params_getS3Params (s : value) (p : uploadDirParams) :
  sync_params s = Ok p -> getS3Params p = getS3Params_of s (localDir p).
Proof.
  intros Hp. by destruct (sync_params_ok_run s p Hp) as (dir & _ & ->).
Qed.

Lemma toUpload_spec (p : uploadDirParams) (localFile : string)
    (localFiles : list string) :
  localFile ∈ toUpload p localFiles
  <-> localFile ∈ localFiles
      /\ exists params, getS3Params p localFile = Ok (Some params).
Proof.
  unfold toUpload. rewrite list_elem_of_filter, bool_decide_spec.
  split.
  - intros [H1 H2]. split; [done|].
    destruct (getS3Params p localFile) as [[o|]|]; [by eexists|by destruct H1..].
  - intros [H1 [params ->]]. split; [by eexists|done].
Qed.

Lemma not_toUpload_skipped (p : uploadDirParams) (localFile : string)
    (localFiles : list string) :
  getS3Params p localFile = Ok None -> localFile ∉ toUpload p localFiles.
Proof.
  intros Hskip. rewrite toUpload_spec, Hskip. by intros [_ [params ?]].
Qed.

Lemma getS3Params_of_run (s : value) (localDir localFile : string)
    (merged : object) (onlyForEnv : value) :
  resolve_params s localDir localFile = Ok (merged, onlyForEnv) ->
  getS3Params_of s localDir localFile
  = if truthy onlyForEnv && negb (strict_equals onlyForEnv env)
    then Ok None
    else Ok (Some merged).
Proof.
  intros Hres. unfold ServerlessS3Sync.getS3Params_of. by rewrite Hres.
Qed.

Lemma is_set_truthy (v : value) :
  v = VUndefined \/ truthy v = true -> is_set v = truthy v.
Proof. intros [->|Hv]; [done|]. rewrite Hv. by destruct v. Qed.

(** C2.  [onlyForEnv], when the loop over the rules is over, is either
    [undefined] or truthy, so that "set" reads either way.  If it is set
    and differs from the active environment, [getS3Params] calls back with
    [null] and the file is not in the upload set; otherwise it calls back
    with the merged parameters, and the file is in the upload set when
    the client has it to upload.  For two strings, "differs" is: they are
    not the same string. *)
Theorem getS3Params_skips_other_environments
    (s : value) (p : uploadDirParams) (localFile : string)
    (merged : object) (onlyForEnv : value) :
  sync_params s = Ok p ->
  resolve_params s (localDir p) localFile = Ok (merged, onlyForEnv) ->
  (onlyForEnv = VUndefined \/ truthy onlyForEnv = true)
  /\ getS3Params p localFile
     = (if is_set onlyForEnv && negb (strict_equals onlyForEnv env)
        then Ok None
        else Ok (Some merged))
  /\ (forall localFiles,
        localFile ∈ toUpload p localFiles
        <-> localFile ∈ localFiles
            /\ is_set onlyForEnv && negb (strict_equals onlyForEnv env) = false)
  /\ (forall a b,
        onlyForEnv = VStr a -> env = VStr b ->
        (a <> b -> getS3Params p localFile = Ok None)
        /\ (a = b -> getS3Params p localFile = Ok (Some merged))).
Proof.
  intros Hp Hres.
  pose proof (resolve_params_onlyForEnv_set _ _ _ _ _ Hres) as Hset.
  pose proof (getS3Params_of_run _ _ _ _ _ Hres) as Hrun.
  rewrite <- (sync_params_getS3Params _ _ Hp) in Hrun.
  rewrite <- (is_set_truthy _ Hset) in Hrun.
  split; [done|]. split; [done|]. split.
  - intros localFiles. rewrite toUpload_spec, Hrun.
    destruct (_ && _); split; intros [Hin H]; (split; [done|]);
      try done; [by destruct H|by eexists].
  - intros a b -> Henv. rewrite Henv in Hrun.
    assert (truthy (VStr a) = true) as Ha by (by destruct Hset).
    cbn [is_set strict_equals andb] in Hrun. rewrite Hrun.
    destruct (String.eqb_spec a b); split; done.
Qed.



(** C10.  With no active environment ([this.options.env] undefined), a
    file for which the rules leave a truthy [onlyForEnv] gets the [null]
    callback and is not in the upload set. *)
Theorem undefined_env_skips_gated_files
    (s : value) (p : uploadDirParams) (localFile : string)
    (merged : object) (onlyForEnv : value) :
  ServerlessS3Sync.sync_params minimatch path_resolve Number_toString
    servicePath VUndefined s = Ok p ->
  resolve_params s (localDir p) localFile = Ok (merged, onlyForEnv) ->
  truthy onlyForEnv = true ->
  getS3Params p localFile = Ok None
  /\ forall localFiles, localFile ∉ toUpload p localFiles.
Proof.
  intros Hp Hres Htruthy.
  assert (getS3Params p localFile = Ok None) as Hskip.
  { revert Hp Hres. unfold ServerlessS3Sync.sync_params.
    destruct (ServerlessS3Sync.sync_settings s) as [st|]; [|done].
    cbn [mbind result_bind]. unfold ServerlessS3Sync.executor_params.
    destruct (ServerlessS3Sync.join _ _ _) as [dir|]; [|done].
    cbn [mbind result_bind]. intros [= <-]. cbn [getS3Params localDir].
    intros Hres. unfold ServerlessS3Sync.getS3Params_of. rewrite Hres.
    cbn [mbind result_bind fst snd]. rewrite Htruthy.
    by destruct onlyForEnv. }
  split; [done|]. intros localFiles. by apply not_toUpload_skipped.
Qed.
(** *** Further properties of the rules *)

Lemma forEach_rules_ok (localFile localDir : string) (rules : list value)
    (acc : object * value) :
  Forall (fun r => nullish r = false) rules ->
  exists acc', forEach (forEach_param localFile localDir) rules acc = Ok acc'.
Proof.
  intros Hrules. revert acc.
  induction Hrules as [|r rest Hr _ IH]; intros acc; [by eexists|].
  cbn [forEach]. rewrite forEach_param_ok by done.
  cbn [mbind result_bind]. apply IH.
Qed.

Lemma forEach_rules_nullish (localFile localDir : string) (rules : list value)
    (acc : object * value) :
  Exists (fun r => nullish r = true) rules ->
  forEach (forEach_param localFile localDir) rules acc = Throw TypeError.
Proof.
  intros Hrules. revert acc.
  induction rules as [|r rest IH]; intros acc; [by inversion Hrules|].
  cbn [forEach]. destruct (nullish r) eqn:Hr.
  - by rewrite forEach_param_nullish.
  - rewrite forEach_param_ok by done. cbn [mbind result_bind].
    apply IH. apply Exists_cons in Hrules as [Hr'|Hrest]; [congruence|done].
Qed.

(** The loop passes over the rules that do not match. *)
Lemma forEach_rules_filter (localFile localDir : string) (rules : list value)
    (acc : object * value) :
  Forall (fun r => nullish r = false) rules ->
  forEach (forEach_param localFile localDir) rules acc
  = forEach (forEach_param localFile localDir)
      (List.filter (matches localDir localFile) rules) acc.
Proof.
  intros Hrules. revert acc.
  induction Hrules as [|r rest Hr _ IH]; intros acc; [done|].
  cbn [forEach List.filter]. rewrite forEach_param_ok by done.
  destruct (matches localDir localFile r) eqn:Hm; cbn [mbind result_bind].
  - cbn [forEach]. rewrite forEach_param_ok, Hm by done. apply IH.
  - apply IH.
Qed.

(** X7.  A file gets the empty parameters, whatever the environment, when
    the target has no [params] array, and also when none of its rules
    matches the file. *)
Theorem getS3Params_without_matching_rule
    (s : value) (localDir localFile : string) :
  nullish s = false ->
  (isArray (read s "params") = false ->
   getS3Params_of s localDir localFile = Ok (Some empty_object))
  /\ (forall rules,
        read s "params" = VArr rules ->
        Forall (fun r => nullish r = false
                         /\ matches localDir localFile r = false) rules ->
        getS3Params_of s localDir localFile = Ok (Some empty_object)).
Proof.
  intros Hs. split.
  - intros Hparams. unfold ServerlessS3Sync.getS3Params_of.
    by rewrite resolve_params_no_array.
  - intros rules Hparams Hrules.
    unfold ServerlessS3Sync.getS3Params_of.
    rewrite (resolve_params_rules _ _ _ _ Hs Hparams).
    rewrite forEach_rules_filter
      by (eapply Forall_impl; [exact Hrules|]; by intros r [? _]).
    assert (List.filter (matches localDir localFile) rules = []) as ->.
    { clear Hparams. induction Hrules as [|r rest [_ Hr] _ IH]; [done|].
      cbn [List.filter]. by rewrite Hr. }
    done.
Qed.

(** X8.  The rules that do not match a file have no part in its
    parameters: a target whose [params] are only the matching rules of
    another, in the same order, gives the file the same answer. *)
Theorem getS3Params_ignores_other_rules
    (s s' : value) (localDir localFile : string) (rules : list value) :
  nullish s = false ->
  nullish s' = false ->
  read s "params" = VArr rules ->
  read s' "params" = VArr (List.filter (matches localDir localFile) rules) ->
  Forall (fun r => nullish r = false) rules ->
  getS3Params_of s localDir localFile = getS3Params_of s' localDir localFile.
Proof.
  intros Hs Hs' Hparams Hparams' Hrules.
  unfold ServerlessS3Sync.getS3Params_of.
  rewrite (resolve_params_rules _ _ _ _ Hs Hparams),
          (resolve_params_rules _ _ _ _ Hs' Hparams').
  by rewrite forEach_rules_filter.
Qed.

(** X9.  [getS3Params] throws a [TypeError] for every file as soon as one
    entry of [params] is [undefined] or [null], whether or not any rule
    matches; with no such entry it always calls back. *)
Theorem getS3Params_throws_iff_nullish_rule
    (s : value) (localDir localFile : string) (rules : list value) :
  nullish s = false ->
  read s "params" = VArr rules ->
  (Exists (fun r => nullish r = true) rules ->
   getS3Params_of s localDir localFile = Throw TypeError)
  /\ (Forall (fun r => nullish r = false) rules ->
      exists answer, getS3Params_of s localDir localFile = Ok answer).
Proof.
  intros Hs Hparams. unfold ServerlessS3Sync.getS3Params_of.
  rewrite (resolve_params_rules _ _ _ _ Hs Hparams). split.
  - intros Hnull. by rewrite forEach_rules_nullish.
  - intros Hrules.
    destruct (forEach_rules_ok localFile localDir rules
                (empty_object, VUndefined) Hrules) as [acc ->].
    cbn [mbind result_bind fst snd]. destruct (_ && _); eauto.
Qed.

(** *** Which [OnlyForEnv] gates a file *)

Lemma gate_kept_step (localFile localDir : string) (v : value)
    (acc acc' : object * value) (r : value) :
  truthy v = true ->
  (matches localDir localFile r = true ->
   forall w, lookup_prop (own_props (rule_source r)) "OnlyForEnv" = Some w ->
             truthy w = false) ->
  gate_kept v acc ->
  forEach_param localFile localDir acc r = Ok acc' ->
  gate_kept v acc'.
Proof.
  intros Hv Hr (Hgate & u & Hu & Hkey) Hstep.
  apply forEach_param_run in Hstep as [_ ->].
  destruct (matches localDir localFile r) eqn:Hm; [|by split; eauto].
  specialize (Hr eq_refl). unfold gate_kept. cbn [fst snd].
  pose proof (Object_assign_lookup acc.1 (rule_source r) "OnlyForEnv"
                ltac:(done)) as Hown.
  destruct (lookup_prop (own_props (rule_source r)) "OnlyForEnv") as [w|] eqn:Hw.
  - specialize (Hr w eq_refl). rewrite (object_get_own _ _ _ Hown).
    unfold js_or. rewrite Hr. split; [done|]. exists w. by split; [|right].
  - rewrite Hu in Hown. rewrite (object_get_own _ _ _ Hown).
    split; [|by exists u].
    unfold js_or. destruct Hkey as [->|Hu']; [by rewrite Hv|by rewrite Hu'].
Qed.

Lemma gate_kept_loop (localFile localDir : string) (v : value)
    (post : list value) (acc acc' : object * value) :
  truthy v = true ->
  Forall (fun r =>
            matches localDir localFile r = true ->
            forall w, lookup_prop (own_props (rule_source r)) "OnlyForEnv" = Some w ->
                      truthy w = false) post ->
  gate_kept v acc ->
  forEach (forEach_param localFile localDir) post acc = Ok acc' ->
  gate_kept v acc'.
Proof.
  intros Hv Hpost. revert acc.
  induction Hpost as [|r rest Hr _ IH]; intros acc Hgate.
  - by intros [= <-].
  - cbn [forEach].
    destruct (forEach_param localFile localDir acc r) as [acc1|] eqn:Hstep;
      [|done].
    cbn [mbind result_bind]. apply IH.
    by eapply gate_kept_step.
Qed.

(** X10.  The [OnlyForEnv] that gates a file is the one of the last
    matching rule that gives it a truthy value: a later matching rule
    without the key, or with a falsy value for it, does not lift the gate.
    The file is then uploaded only when the active environment is that
    very value. *)
Theorem last_truthy_OnlyForEnv_gates
    (s : value) (localDir localFile : string)
    (pre : list value) (r : value) (post : list value) (v : value)
    (merged : object) (onlyForEnv : value) :
  read s "params" = VArr (pre ++ r :: post) ->
  resolve_params s localDir localFile = Ok (merged, onlyForEnv) ->
  matches localDir localFile r = true ->
  lookup_prop (own_props (rule_source r)) "OnlyForEnv" = Some v ->
  truthy v = true ->
  Forall (fun r' =>
            matches localDir localFile r' = true ->
            forall w, lookup_prop (own_props (rule_source r')) "OnlyForEnv" = Some w ->
                      truthy w = false) post ->
  onlyForEnv = v
  /\ getS3Params_of s localDir localFile
     = if strict_equals v env then Ok (Some merged) else Ok None.
Proof.
  intros Hparams Hres Hr Hkey Hv Hpost.
  pose proof (getS3Params_of_run _ _ _ _ _ Hres) as Hrun.
  destruct (resolve_params_array _ _ _ _ _ _ Hparams Hres)
    as (acc & Hloop & _ & ->).
  rewrite forEach_app in Hloop.
  destruct (forEach _ pre _) as [acc1|]; [|done].
  cbn [mbind result_bind forEach] in Hloop.
  destruct (forEach_param localFile localDir acc1 r) as [acc2|] eqn:Hstep;
    [|done].
  cbn [mbind result_bind] in Hloop.
  assert (gate_kept v acc2) as Hgate.
  { apply forEach_param_run in Hstep as [_ ->]. rewrite Hr.
    unfold gate_kept. cbn [fst snd].
    pose proof (Object_assign_lookup acc1.1 (rule_source r) "OnlyForEnv"
                  ltac:(done)) as Hown.
    rewrite Hkey in Hown. rewrite (object_get_own _ _ _ Hown).
    unfold js_or. rewrite Hv. split; [done|]. exists v. by split; [|left]. }
  destruct (gate_kept_loop _ _ _ _ _ _ Hv Hpost Hgate Hloop) as [Hofe _].
  split; [done|].
  rewrite Hrun, Hofe, Hv. cbn [andb]. by destruct (strict_equals v env).
Qed.

(** X19.  Of a rule object only the first key, the glob, and its value
    count: the keys that follow are ignored. *)
Theorem rule_extra_keys_ignored (localFile localDir : string)
    (acc : object * value) (glob : string) (v : value)
    (rest : list (string * value)) :
  lookup_prop rest glob = None ->
  forEach_param localFile localDir acc (VObj ((glob, v) :: rest))
  = forEach_param localFile localDir acc (VObj [(glob, v)]).
Proof.
  intros Hrest. rewrite !forEach_param_ok by done.
  assert (rule_source (VObj ((glob, v) :: rest)) = rule_source (VObj [(glob, v)]))
    as Hsource.
  { unfold rule_source, rule_glob, read. cbn [own_props map fst lookup
      list_lookup key_string from_option id lookup_prop].
    by rewrite Hrest, String.eqb_refl. }
  by rewrite Hsource.
Qed.

End Properties.
(** ** Progress *)

Lemma current_div (amount total : Z) :
  0 < total -> current amount total = (20 * amount + total) / (2 * total) * 10.
Proof.
  intros Ht. unfold current, Math_round.
  destruct total as [|p|p]; try lia.
  f_equal.
  rewrite (Qfloor_comp _ ((20 * amount + Z.pos p) # (2 * p))).
  - reflexivity.
  - unfold Qeq, Qdiv, Qmult, Qinv, Qplus, inject_Z. simpl. lia.
Qed.

Lemma spec_decile_div (amount total : Z) :
  0 < total -> spec_decile amount total = (10 * amount) / total * 10.
Proof.
  intros Ht. unfold spec_decile.
  destruct total as [|p|p]; try lia.
  f_equal.
  rewrite (Qfloor_comp _ ((10 * amount) # p)).
  - reflexivity.
  - unfold Qeq, Qdiv, Qmult, Qinv, Qplus, inject_Z. simpl. lia.
Qed.

(** What the handler reports is what rounding down would give, or the
    decile above. *)
Lemma current_spec_decile (amount total : Z) :
  0 < total ->
  current amount total = spec_decile amount total
  \/ current amount total = spec_decile amount total + 10.
Proof.
  intros Ht. rewrite current_div, spec_decile_div by done.
  pose proof (Z.div_mod (20 * amount + total) (2 * total) ltac:(lia)).
  pose proof (Z.mod_pos_bound (20 * amount + total) (2 * total) ltac:(lia)).
  pose proof (Z.div_mod (10 * amount) total ltac:(lia)).
  pose proof (Z.mod_pos_bound (10 * amount) total ltac:(lia)).
  assert ((20 * amount + total) / (2 * total) = 10 * amount / total
          \/ (20 * amount + total) / (2 * total) = 10 * amount / total + 1)
    as [->| ->] by nia; [by left|right; lia].
Qed.

(** With the amount between zero and the total, the decile is one of
    0, 10, ..., 100. *)
Lemma current_range (amount total : Z) :
  0 < total -> 0 <= amount <= total ->
  0 <= current amount total <= 100 /\ (10 | current amount total).
Proof.
  intros Ht Ha. rewrite current_div by done.
  pose proof (Z.div_mod (20 * amount + total) (2 * total) ltac:(lia)).
  pose proof (Z.mod_pos_bound (20 * amount + total) (2 * total) ltac:(lia)).
  split; [nia|]. by apply Z.divide_factor_r.
Qed.


(** *** The decile in double precision *)

Lemma double_fraction_positive (x : float) (f : Z * Z) :
  double_fraction x = Some f -> 0 < f.2.
Proof.
  unfold double_fraction. destruct (Prim2SF x) as [s| | |s m e]; try done.
  - by intros [= <-].
  - intros [= <-]. destruct (0 <=? e) eqn:He; cbn [snd]; [lia|].
    apply Z.pow_pos_nonneg; lia.
Qed.

(** [nearest] is the integer nearest to the fraction, a half going up. *)
Lemma nearest_spec (f : Z * Z) :
  0 < f.2 ->
  (2 * nearest f - 1) * f.2 <= 2 * f.1 < (2 * nearest f + 1) * f.2.
Proof.
  intros Hd. unfold nearest.
  pose proof (Z.div_mod (2 * f.1 + f.2) (2 * f.2) ltac:(lia)) as Hdm.
  pose proof (Z.mod_pos_bound (2 * f.1 + f.2) (2 * f.2) ltac:(lia)) as Hr.
  nia.
Qed.

Lemma nearest_unique (f : Z * Z) (k : Z) :
  0 < f.2 ->
  (2 * k - 1) * f.2 <= 2 * f.1 < (2 * k + 1) * f.2 ->
  k = nearest f.
Proof.
  intros Hd Hk. pose proof (nearest_spec f Hd) as Hn. nia.
Qed.

(** C3, as amended.  The decile reported for a progress event is
    worked out in double precision: with [x] the double
    [(progressAmount / progressTotal) * 10], it is ten times
    [Math.round(x)].  When [x] is finite, [Math.round(x)] is the integer
    [k] nearest to the exact value [n / d] of [x], a half going up: the
    one [k] with [k - 1/2 <= n / d < k + 1/2]; it comes as a zero of the
    sign of [x] when [k] is zero, as [x] itself when [x] is an integer,
    and as the double of [k] otherwise.  When [x] is not finite (NaN or
    an infinity), [Math.round(x)] is [x]. *)
Theorem decile_is_nearest (progressAmount progressTotal : float) :
  let x := (progressAmount / progressTotal * 10)%float in
  (forall f : Z * Z,
     double_fraction x = Some f ->
     0 < f.2
     /\ exists k : Z,
          (2 * k - 1) * f.2 <= 2 * f.1 < (2 * k + 1) * f.2
          /\ (forall k' : Z,
                (2 * k' - 1) * f.2 <= 2 * f.1 < (2 * k' + 1) * f.2 -> k' = k)
          /\ current_double progressAmount progressTotal
             = ((if (k =? 0)%Z
                 then (if negative x then neg_zero else zero)
                 else if (f.2 =? 1)%Z then x
                 else number k) * 10)%float)
  /\ (double_fraction x = None ->
      current_double progressAmount progressTotal = (x * 10)%float).
Proof.
  intros x. split.
  - intros f Hf. pose proof (double_fraction_positive x f Hf) as Hd.
    split; [done|]. exists (nearest f).
    split; [by apply nearest_spec|]. split.
    + intros k' Hk'. by apply nearest_unique.
    + unfold current_double, Math_round_double. fold x. by rewrite Hf.
  - intros Hf. unfold current_double, Math_round_double. fold x.
    by rewrite Hf.
Qed.

Lemma on_progress_cases (percent amount total : Z) :
  (on_progress percent amount total = (percent, []))
  \/ (percent < current amount total
      /\ on_progress percent amount total = (current amount total, [printDot])).
Proof.
  unfold on_progress. destruct (total =? 0); [by left|].
  destruct (current amount total >? percent) eqn:Hc; [right|by left].
  split; [lia|done].
Qed.

Lemma ticks_above (percent : Z) (events : list (Z * Z)) :
  Forall (fun d => percent < d) (ticks percent events)
  /\ StronglySorted Z.lt (ticks percent events).
Proof.
  revert percent. induction events as [|[amount total] rest IH]; intros percent.
  - split; constructor.
  - cbn [ticks].
    destruct (on_progress_cases percent amount total) as [->|[Hlt ->]]; cbn [fst snd].
    + apply IH.
    + destruct (IH (current amount total)) as [Habove Hsorted].
      split.
      * constructor; [done|]. eapply Forall_impl; [exact Habove|]. simpl. lia.
      * by constructor.
Qed.

Lemma StronglySorted_lt_NoDup (l : list Z) : StronglySorted Z.lt l -> NoDup l.
Proof.
  induction 1 as [|x l _ IH Hx]; constructor; [|done].
  intros Hin. rewrite Forall_forall in Hx. specialize (Hx x Hin). lia.
Qed.

Lemma on_progress_all_dots (percent : Z) (events : list (Z * Z)) :
  (on_progress_all percent events).2
  = map (fun _ => printDot) (ticks percent events).
Proof.
  revert percent. induction events as [|[amount total] rest IH]; intros percent; [done|].
  cbn [on_progress_all ticks].
  destruct (on_progress_cases percent amount total) as [->|[_ ->]];
    cbn [fst snd app map]; by rewrite IH.
Qed.

(** The dots of a job whose amounts stay between zero and the total stand
    for deciles among 10, 20, ..., 100. *)
Lemma ticks_range (percent : Z) (events : list (Z * Z)) :
  Forall (fun e => 0 <= e.1 <= e.2) events ->
  Forall (fun d => 0 <= d <= 100 /\ (10 | d)) (ticks percent events).
Proof.
  intros Hev. revert percent.
  induction Hev as [|[amount total] rest He _ IH]; intros percent; [constructor|].
  cbn [ticks]. unfold on_progress.
  destruct (Z.eqb_spec total 0) as [->|Hne]; cbn [fst snd]; [apply IH|].
  destruct (current amount total >? percent); cbn [fst snd]; [|apply IH].
  constructor; [|apply IH]. apply current_range; simpl in He; lia.
Qed.

(** C4.  Over the progress events of one job, starting from
    [percent = 0]: the deciles at which a dot is printed are strictly
    increasing, so none is printed twice and none after a higher one; each
    is above zero; the handler prints exactly one dot for each of them; an
    event that finds a total of zero prints nothing and leaves [percent]
    as it was, and a job all of whose events find a total of zero prints
    no dot. *)
Theorem ticks_strictly_increase (events : list (Z * Z)) (percent : Z)
    (amounts : list Z) :
  StronglySorted Z.lt (ticks 0 events)
  /\ NoDup (ticks 0 events)
  /\ Forall (fun d => 0 < d) (ticks 0 events)
  /\ (on_progress_all 0 events).2 = map (fun _ => printDot) (ticks 0 events)
  /\ Forall (fun amount => on_progress percent amount 0 = (percent, [])) amounts
  /\ ticks 0 (map (fun amount => (amount, 0)) amounts) = [].
Proof.
  destruct (ticks_above 0 events) as [Habove Hsorted].
  repeat split; try done.
  - by apply StronglySorted_lt_NoDup.
  - apply on_progress_all_dots.
  - by apply Forall_forall.
  - induction amounts as [|a l IH]; [done|]. exact IH.
Qed.


(** ** The event loop *)

Lemma event_loop_one_job (callback : list effect) (start : Z)
    (events : list (Z * Z)) :
  trace (event_loop callback
           {| jobs := [{| percent := start; resolved := false |}];
              settled := false |}
           (map (fun e => (0%nat, progress e.1 e.2)) events ++ [(0%nat, end_)]))
  = (map (fun _ => printDot) (ticks start events) ++ callback)%list.
Proof.
  revert start. induction events as [|[amount total] rest IH]; intros start.
  - cbn. by rewrite !app_nil_r.
  - cbn [map app event_loop ticks fst snd].
    unfold mbind at 1, prog_bind at 1.
    unfold deliver at 1 2 3. cbn [jobs fst snd lookup list_lookup].
    unfold on_event, settle.
    cbn [fst snd mbind prog_bind outcome trace mret prog_ret insert
         list_insert jobs settled negb andb forallb resolved percent app].
    rewrite IH.
    destruct (on_progress_cases start amount total) as [->|[_ ->]];
      by rewrite app_nil_r.
Qed.

(** A job that reports progress and then ends: the dots printed are those
    of [ticks], followed by what the [then] callback prints. *)
Lemma run_one_job {J} (job : J) (callback : list effect) (events : list (Z * Z)) :
  trace (run (Promise_all_then [job] callback)
           (map (fun e => (0%nat, progress e.1 e.2)) events ++ [(0%nat, end_)]))
  = (map (fun _ => printDot) (ticks 0 events) ++ callback)%list.
Proof.
  unfold run, settle. cbn [map negb andb settled jobs forallb resolved].
  unfold mbind at 1, prog_bind. cbn [mret prog_ret outcome trace app].
  apply event_loop_one_job.
Qed.


(** ** More on progress *)


Lemma sorted_deciles_length (l : list Z) (percent : Z) :
  (10 | percent) ->
  Forall (fun d => percent < d) l ->
  Forall (fun d => 0 <= d <= 100 /\ (10 | d)) l ->
  StronglySorted Z.lt l ->
  10 * Z.of_nat (length l) <= 100 - percent \/ l = [].
Proof.
  intros Hp Habove Hrange Hsorted. revert percent Hp Habove.
  induction Hsorted as [|x l _ IH Hx]; intros percent Hp Habove; [by right|].
  left. apply Forall_cons in Habove as [Hpx _].
  apply Forall_cons in Hrange as [[Hx100 Hx10] Hrange].
  destruct Hp as [a ->]. destruct Hx10 as [b ->].
  destruct (IH Hrange (b * 10) ltac:(by exists b) Hx) as [Hlen| ->];
    cbn [length]; lia.
Qed.

(** X12.  A job whose amounts stay between zero and the total prints at
    most ten dots, however many progress events it has. *)
Theorem at_most_ten_dots (events : list (Z * Z)) :
  Forall (fun e => 0 <= e.1 <= e.2) events ->
  (length (on_progress_all 0 events).2 <= 10)%nat.
Proof.
  intros Hev. rewrite on_progress_all_dots, length_map.
  destruct (ticks_above 0 events) as [Habove Hsorted].
  destruct (sorted_deciles_length (ticks 0 events) 0
              ltac:(by exists 0) Habove (ticks_range 0 events Hev) Hsorted)
    as [Hlen| ->]; cbn [length]; lia.
Qed.

Lemma current_full (total : Z) : 0 < total -> current total total = 100.
Proof.
  intros Ht. rewrite current_div by done.
  assert ((20 * total + total) / (2 * total) = 10) as ->; [|done].
  symmetry. apply (Z.div_unique_pos _ _ 10 total); lia.
Qed.

Lemma ticks_reach_full (percent total : Z) (events : list (Z * Z)) :
  Forall (fun e => 0 <= e.1 <= e.2) events ->
  percent < 100 -> 0 < total -> (total, total) ∈ events ->
  100 ∈ ticks percent events.
Proof.
  intros Hev. revert percent.
  induction Hev as [|[amount total'] rest He _ IH]; intros percent Hp Ht Hin;
    [by apply elem_of_nil in Hin|].
  cbn [fst snd] in He. cbn [ticks]. unfold on_progress.
  apply elem_of_cons in Hin as [[= <- <-]|Hin].
  - assert ((total =? 0) = false) as -> by lia.
    rewrite current_full by done.
    assert ((100 >? percent) = true) as -> by lia.
    cbn [fst snd]. by left.
  - destruct (Z.eqb_spec total' 0) as [->|Hne]; cbn [fst snd]; [by apply IH|].
    pose proof (current_range amount total' ltac:(lia) He) as [Hc _].
    destruct (current amount total' >? percent) eqn:Hgt; cbn [fst snd];
      [|by apply IH].
    destruct (decide (current amount total' = 100)) as [->|Hne100];
      [by left|].
    right. apply IH; [lia|done..].
Qed.

(** X13.  A job whose amounts stay between zero and the total, and which
    has a progress event with the amount at the (positive) total, prints
    the dot of the decile 100. *)
Theorem full_progress_reaches_100 (total : Z) (events : list (Z * Z)) :
  Forall (fun e => 0 <= e.1 <= e.2) events ->
  0 < total -> (total, total) ∈ events ->
  100 ∈ ticks 0 events.
Proof. intros Hev Ht Hin. by apply (ticks_reach_full 0 total). Qed.

(** *** The handler in double precision *)

Lemma SFltb_trans (a b c : spec_float) :
  SFltb a b = true -> SFltb b c = true -> SFltb a c = true.
Proof.
  unfold SFltb.
  destruct a as [sa|sa| |sa ma ea], b as [sb|sb| |sb mb eb],
    c as [sc|sc| |sc mc ec]; cbn [SFcompare];
    try destruct sa; try destruct sb; try destruct sc; try done.
  all: change (PosDef.Pos.compare_cont Eq) with Pos.compare.
  all: destruct (Z.compare_spec ea eb), (Z.compare_spec eb ec),
         (Z.compare_spec ea ec); try lia; try done.
  all: destruct (Pos.compare_spec ma mb), (Pos.compare_spec mb mc),
         (Pos.compare_spec ma mc); cbn; try lia; try done.
Qed.

Lemma SFltb_irrefl (a : spec_float) : SFltb a a = false.
Proof.
  unfold SFltb. destruct a as [s|s| |s m e]; cbn [SFcompare]; try done.
  - by destruct s.
  - change (PosDef.Pos.compare_cont Eq) with Pos.compare.
    rewrite Z.compare_refl, Pos.compare_refl. by destruct s.
Qed.

Lemma float_ltb_trans (x y z : float) :
  PrimFloat.ltb x y = true -> PrimFloat.ltb y z = true ->
  PrimFloat.ltb x z = true.
Proof. rewrite !ltb_spec. apply SFltb_trans. Qed.

Lemma float_ltb_irrefl (x : float) : PrimFloat.ltb x x = false.
Proof. rewrite ltb_spec. apply SFltb_irrefl. Qed.

Lemma on_progress_double_cases (percent amount total : float) :
  (on_progress_double percent amount total = (percent, []))
  \/ (PrimFloat.ltb percent (current_double amount total) = true
      /\ on_progress_double percent amount total
         = (current_double amount total, [printDot])).
Proof.
  unfold on_progress_double. destruct (PrimFloat.eqb total 0); [by left|].
  destruct (PrimFloat.ltb percent (current_double amount total)) eqn:Hc;
    [by right|by left].
Qed.

Lemma ticks_double_above (percent : float) (events : list (float * float)) :
  Forall (fun d => PrimFloat.ltb percent d = true) (ticks_double percent events)
  /\ StronglySorted (fun a b => PrimFloat.ltb a b = true)
       (ticks_double percent events).
Proof.
  revert percent. induction events as [|[amount total] rest IH]; intros percent.
  - split; constructor.
  - cbn [ticks_double].
    destruct (on_progress_double_cases percent amount total) as [->|[Hlt ->]];
      cbn [fst snd].
    + apply IH.
    + destruct (IH (current_double amount total)) as [Habove Hsorted].
      split.
      * constructor; [done|]. eapply Forall_impl; [exact Habove|].
        intros d Hd. by eapply float_ltb_trans.
      * by constructor.
Qed.

(** X22.  The same holds of the handler as the program computes it, in
    double precision: over the progress events of one job, starting from
    [percent = 0], the deciles at which a dot is printed are strictly
    increasing, so none is printed twice and none after a higher one;
    each is above zero; the handler prints exactly one dot for each of
    them; and an event that finds a total of zero (of either sign) prints
    nothing and leaves [percent] as it was. *)
Theorem double_ticks_strictly_increase (events : list (float * float)) :
  StronglySorted (fun a b => PrimFloat.ltb a b = true) (ticks_double 0 events)
  /\ NoDup (ticks_double 0 events)
  /\ Forall (fun d => PrimFloat.ltb 0 d = true) (ticks_double 0 events)
  /\ (on_progress_double_all 0 events).2
     = map (fun _ => printDot) (ticks_double 0 events)
  /\ (forall percent amount,
        on_progress_double percent amount 0 = (percent, [])
        /\ on_progress_double percent amount (-0) = (percent, [])).
Proof.
  destruct (ticks_double_above 0 events) as [Habove Hsorted].
  split; [done|]. split; [|split; [done|split]].
  - clear Habove. induction Hsorted as [|x l _ IH Hx]; constructor; [|done].
    intros Hin. rewrite Forall_forall in Hx. specialize (Hx x Hin).
    by rewrite float_ltb_irrefl in Hx.
  - clear Habove Hsorted. generalize 0%float.
    induction events as [|[amount total] rest IH]; intros percent; [done|].
    cbn [on_progress_double_all ticks_double].
    destruct (on_progress_double_cases percent amount total) as [->|[_ ->]];
      cbn [fst snd app map]; by rewrite IH.
  - intros percent amount. split; reflexivity.
Qed.

(** ** The promise of all the jobs *)

Lemma lines_app (tr1 tr2 : list effect) :
  lines (tr1 ++ tr2) = (lines tr1 ++ lines tr2)%list.
Proof. apply omap_app. Qed.

Lemma lines_on_progress (percent amount total : Z) :
  lines (on_progress percent amount total).2 = [].
Proof. by destruct (on_progress_cases percent amount total) as [->|[_ ->]]. Qed.

Lemma prog_bind_ok {A B} (m : prog A) (f : A -> prog B) (a : A) :
  outcome m = Ok a ->
  m ≫= f = Prog (trace m ++ trace (f a)) (outcome (f a)).
Proof. intros Hm. unfold mbind, prog_bind. by rewrite Hm. Qed.

Lemma prog_bind_throw {A B} (m : prog A) (f : A -> prog B) (e : exn) :
  outcome m = Throw e -> m ≫= f = Prog (trace m) (Throw e).
Proof. intros Hm. unfold mbind, prog_bind. by rewrite Hm. Qed.

Lemma prog_bind_ret {A B} (a : A) (f : A -> prog B) : mret a ≫= f = f a.
Proof. unfold mbind, prog_bind. cbn. by destruct (f a). Qed.

Lemma prog_bind_assoc {A B C} (m : prog A) (f : A -> prog B) (g : B -> prog C) :
  (m ≫= f) ≫= g = m ≫= (fun a => f a ≫= g).
Proof.
  destruct m as [t [a|e]]; unfold mbind, prog_bind; cbn [outcome trace]; [|done].
  destruct (f a) as [t' [b|e']]; cbn [outcome trace]; [|done].
  by rewrite app_assoc.
Qed.

Lemma prog_bind_ext {A B} (m : prog A) (f g : A -> prog B) :
  (forall a, f a = g a) -> m ≫= f = m ≫= g.
Proof.
  intros Hfg. unfold mbind, prog_bind.
  destruct (outcome m); [|done]. by rewrite Hfg.
Qed.

Lemma event_loop_app (callback : list effect) (st : loop_state)
    (events1 events2 : list (nat * uploader_event)) :
  event_loop callback st (events1 ++ events2)
  = event_loop callback st events1
      ≫= fun st' => event_loop callback st' events2.
Proof.
  revert st. induction events1 as [|ev rest IH]; intros st.
  - cbn [app event_loop]. by rewrite prog_bind_ret.
  - cbn [app event_loop]. rewrite prog_bind_assoc.
    apply prog_bind_ext. intros st1. apply IH.
Qed.

(** *** One event *)

Lemma deliver_none (callback : list effect) (st : loop_state) (i : nat)
    (ev : uploader_event) :
  jobs st !! i = None -> deliver callback st (i, ev) = Prog [] (Ok st).
Proof. intros Hi. unfold deliver. cbn [fst snd]. by rewrite Hi. Qed.

Lemma deliver_error (callback : list effect) (st : loop_state) (i : nat)
    (err : value) :
  is_Some (jobs st !! i) ->
  deliver callback st (i, error err) = Prog [] (Throw (Thrown err)).
Proof. intros [j Hi]. unfold deliver. cbn [fst snd]. by rewrite Hi. Qed.

Lemma deliver_end (callback : list effect) (st : loop_state) (i : nat)
    (j : job_state) :
  jobs st !! i = Some j ->
  deliver callback st (i, end_)
  = let js := <[i := {| percent := percent j; resolved := true |}]> (jobs st) in
    if negb (settled st) && forallb resolved js
    then Prog callback (Ok {| jobs := js; settled := true |})
    else Prog [] (Ok {| jobs := js; settled := settled st |}).
Proof.
  intros Hi. unfold deliver, settle. cbn [fst snd on_event]. rewrite Hi.
  unfold mbind, prog_bind. cbn [mret prog_ret outcome trace app jobs settled].
  by destruct (negb (settled st) && _).
Qed.

Lemma forallb_resolved_insert (js : list job_state) (i : nat)
    (j j' : job_state) :
  js !! i = Some j -> resolved j' = resolved j ->
  forallb resolved (<[i := j']> js) = forallb resolved js.
Proof.
  revert i. induction js as [|x js IH]; intros [|i] Hi Hres; try done.
  - cbn in Hi. injection Hi as ->. cbn. by rewrite Hres.
  - cbn. f_equal. by apply IH.
Qed.

Lemma forallb_resolved_false (js : list job_state) (i : nat) (j : job_state) :
  js !! i = Some j -> resolved j = false -> forallb resolved js = false.
Proof.
  revert i. induction js as [|x js IH]; intros [|i] Hi Hres; try done.
  - cbn in Hi. injection Hi as ->. cbn. by rewrite Hres.
  - cbn. rewrite (IH i Hi Hres). apply andb_false_r.
Qed.

Lemma forallb_resolved_true (js : list job_state) :
  (forall i j, js !! i = Some j -> resolved j = true) ->
  forallb resolved js = true.
Proof.
  induction js as [|x js IH]; intros Hall; [done|].
  cbn. rewrite (Hall 0%nat x eq_refl). apply IH.
  intros i j Hi. by apply (Hall (S i)).
Qed.

Lemma deliver_progress (callback : list effect) (st : loop_state) (i : nat)
    (j : job_state) (amount total : Z) :
  jobs st !! i = Some j ->
  settled st = forallb resolved (jobs st) ->
  deliver callback st (i, progress amount total)
  = Prog (on_progress (percent j) amount total).2
         (Ok {| jobs := <[i := {| percent :=
                                   (on_progress (percent j) amount total).1;
                                 resolved := resolved j |}]> (jobs st);
                settled := settled st |}).
Proof.
  intros Hi Hst. unfold deliver, settle. cbn [fst snd on_event]. rewrite Hi.
  unfold mbind, prog_bind. cbn [outcome trace jobs settled].
  rewrite (forallb_resolved_insert _ _ j) by done. rewrite <- Hst.
  destruct (settled st); cbn [negb andb mret prog_ret trace outcome];
    by rewrite app_nil_r.
Qed.

(** What one event can print besides dots: nothing, or, at the moment the
    promise of all the jobs settles, the lines of the callback. *)
Lemma deliver_lines (callback : list effect) (st : loop_state)
    (ev : nat * uploader_event) :
  match outcome (deliver callback st ev) with
  | Ok st' =>
      (settled st' = settled st /\ lines (trace (deliver callback st ev)) = [])
      \/ (settled st = false /\ settled st' = true
          /\ lines (trace (deliver callback st ev)) = lines callback)
  | Throw _ => trace (deliver callback st ev) = []
  end.
Proof.
  destruct ev as [i ev].
  destruct (jobs st !! i) as [j|] eqn:Hi; [|rewrite deliver_none by done; by left].
  destruct ev as [amount total| |err].
  - unfold deliver, settle. cbn [fst snd on_event]. rewrite Hi.
    unfold mbind, prog_bind. cbn [outcome trace jobs settled].
    destruct (settled st) eqn:Hs; cbn [negb andb].
    + cbn [mret prog_ret outcome trace]. left.
      by rewrite app_nil_r, lines_on_progress.
    + destruct (forallb resolved _); cbn [mret prog_ret outcome trace settled].
      * right. by rewrite lines_app, lines_on_progress.
      * left. by rewrite app_nil_r, lines_on_progress.
  - rewrite (deliver_end _ _ _ _ Hi). cbn zeta.
    destruct (settled st) eqn:Hs; cbn [negb andb]; [by left|].
    destruct (forallb resolved _); cbn [outcome trace settled]; [by right|by left].
  - by rewrite deliver_error.
Qed.

(** *** The completion message *)

Lemma event_loop_settled_lines (callback : list effect) (st : loop_state)
    (events : list (nat * uploader_event)) :
  settled st = true -> lines (trace (event_loop callback st events)) = [].
Proof.
  revert st. induction events as [|ev rest IH]; intros st Hst; [done|].
  cbn [event_loop]. pose proof (deliver_lines callback st ev) as Hd.
  destruct (outcome (deliver callback st ev)) as [st1|e] eqn:Hout.
  - rewrite (prog_bind_ok _ _ _ Hout). cbn [trace]. rewrite lines_app.
    destruct Hd as [[Hs1 ->]|[Hs1 _]]; [|congruence].
    apply IH. congruence.
  - rewrite (prog_bind_throw _ _ _ Hout). cbn [trace]. by rewrite Hd.
Qed.

Lemma event_loop_lines (callback : list effect) (st : loop_state)
    (events : list (nat * uploader_event)) :
  lines (trace (event_loop callback st events)) = []
  \/ lines (trace (event_loop callback st events)) = lines callback.
Proof.
  revert st. induction events as [|ev rest IH]; intros st; [by left|].
  cbn [event_loop]. pose proof (deliver_lines callback st ev) as Hd.
  destruct (outcome (deliver callback st ev)) as [st1|e] eqn:Hout.
  - rewrite (prog_bind_ok _ _ _ Hout). cbn [trace]. rewrite lines_app.
    destruct Hd as [[_ ->]|(_ & Hs1 & ->)]; [apply IH|].
    right. by rewrite event_loop_settled_lines, app_nil_r.
  - rewrite (prog_bind_throw _ _ _ Hout). cbn [trace]. rewrite Hd. by left.
Qed.

Lemma event_loop_no_jobs (callback : list effect) (st : loop_state)
    (events : list (nat * uploader_event)) :
  jobs st = [] -> event_loop callback st events = Prog [] (Ok st).
Proof.
  intros Hjobs. induction events as [|[i ev] rest IH]; [done|].
  cbn [event_loop]. rewrite deliver_none by (by rewrite Hjobs).
  by rewrite (prog_bind_ok _ _ st), IH.
Qed.

Lemma run_start {J} (js : list J) (callback : list effect)
    (events : list (nat * uploader_event)) :
  run (Promise_all_then js callback) events
  = match js with
    | [] => Prog callback (Ok {| jobs := []; settled := true |})
    | _ :: _ =>
        event_loop callback
          {| jobs := map (fun _ => {| percent := 0; resolved := false |}) js;
             settled := false |}
          events
    end.
Proof.
  unfold run, settle. destruct js as [|job js].
  - cbn [map jobs settled negb andb forallb].
    rewrite (prog_bind_ok _ _ {| jobs := []; settled := true |}) by done.
    rewrite event_loop_no_jobs by done. cbn [trace outcome].
    by rewrite app_nil_r.
  - cbn [map jobs settled negb andb forallb resolved].
    exact (prog_bind_ret _ (fun st => event_loop callback st events)).
Qed.

(** X14.  Whatever the uploaders emit, and in whatever order, the lines
    of the [then] callback ("Synced." or "Removed." after an empty line)
    are printed at most once, and nothing else is ever printed but dots. *)
Theorem completion_printed_at_most_once {J} (js : list J)
    (callback : list effect) (events : list (nat * uploader_event)) :
  lines (trace (run (Promise_all_then js callback) events)) = []
  \/ lines (trace (run (Promise_all_then js callback) events)) = lines callback.
Proof.
  rewrite run_start. destruct js as [|job js]; [by right|].
  apply event_loop_lines.
Qed.

Lemma deliver_pending (callback : list effect) (st : loop_state)
    (ev : nat * uploader_event) (i : nat) (j : job_state) :
  settled st = false ->
  jobs st !! i = Some j -> resolved j = false ->
  ev <> (i, end_) ->
  match outcome (deliver callback st ev) with
  | Ok st' =>
      settled st' = false
      /\ (exists j', jobs st' !! i = Some j' /\ resolved j' = false)
      /\ lines (trace (deliver callback st ev)) = []
  | Throw _ => trace (deliver callback st ev) = []
  end.
Proof.
  intros Hst Hi Hres Hev. destruct ev as [k ev].
  destruct (jobs st !! k) as [jk|] eqn:Hk;
    [|rewrite deliver_none by done; cbn [outcome trace]; eauto].
  destruct ev as [amount total| |err].
  - unfold deliver, settle. cbn [fst snd on_event]. rewrite Hk.
    unfold mbind, prog_bind. cbn [outcome trace jobs settled].
    rewrite Hst. cbn [negb andb].
    assert (exists j', <[k := {| percent := (on_progress (percent jk) amount total).1;
                               resolved := resolved jk |}]> (jobs st) !! i = Some j'
                       /\ resolved j' = false) as (j' & Hi' & Hres').
    { destruct (decide (k = i)) as [->|Hne].
      - rewrite list_lookup_insert_eq by (by eapply lookup_lt_Some).
        eexists. split; [done|]. cbn. congruence.
      - rewrite list_lookup_insert_ne by done. eauto. }
    rewrite (forallb_resolved_false _ _ _ Hi' Hres').
    cbn [mret prog_ret outcome trace jobs settled].
    rewrite app_nil_r, lines_on_progress. eauto.
  - assert (k <> i) as Hne by congruence.
    rewrite (deliver_end _ _ _ _ Hk). cbn zeta.
    assert (<[k := {| percent := percent jk; resolved := true |}]> (jobs st) !! i
            = Some j) as Hi' by (by rewrite list_lookup_insert_ne).
    rewrite (forallb_resolved_false _ _ _ Hi' Hres), andb_false_r.
    cbn [outcome trace jobs settled]. eauto.
  - by rewrite deliver_error.
Qed.

Lemma event_loop_pending (callback : list effect) (st : loop_state)
    (events : list (nat * uploader_event)) (i : nat) (j : job_state) :
  settled st = false ->
  jobs st !! i = Some j -> resolved j = false ->
  (i, end_) ∉ events ->
  lines (trace (event_loop callback st events)) = []
  /\ forall st', outcome (event_loop callback st events) = Ok st' ->
                 settled st' = false.
Proof.
  revert st j. induction events as [|ev rest IH]; intros st j Hst Hi Hres Hev.
  - split; [done|]. by intros st' [= <-].
  - apply not_elem_of_cons in Hev as [Hne Hev].
    cbn [event_loop].
    pose proof (deliver_pending callback st ev i j Hst Hi Hres
                  ltac:(congruence)) as Hd.
    destruct (outcome (deliver callback st ev)) as [st1|e] eqn:Hout.
    + destruct Hd as (Hst1 & (j1 & Hi1 & Hres1) & Hlines).
      destruct (IH st1 j1 Hst1 Hi1 Hres1 Hev) as [IHlines IHst].
      rewrite (prog_bind_ok _ _ _ Hout). cbn [trace outcome].
      by rewrite lines_app, Hlines, IHlines.
    + rewrite (prog_bind_throw _ _ _ Hout). cbn [trace outcome].
      by rewrite Hd.
Qed.

(** X15.  As long as one of the jobs has not emitted ['end'], nothing but
    dots is printed: the completion message never comes early. *)
Theorem completion_waits_for_every_job {J} (js : list J)
    (callback : list effect) (events : list (nat * uploader_event)) (i : nat) :
  (i < length js)%nat ->
  (i, end_) ∉ events ->
  lines (trace (run (Promise_all_then js callback) events)) = []
  /\ forall st, outcome (run (Promise_all_then js callback) events) = Ok st ->
                settled st = false.
Proof.
  intros Hi Hev. rewrite run_start.
  destruct js as [|job js]; [cbn in Hi; lia|].
  eapply (event_loop_pending _ _ _ i {| percent := 0; resolved := false |});
    try done.
  cbn [jobs]. rewrite list_lookup_fmap.
  destruct (lookup_lt_is_Some_2 (job :: js) i Hi) as [x ->]. done.
Qed.

Lemma event_loop_error (callback : list effect) (st : loop_state)
    (i : nat) (err : value) (post : list (nat * uploader_event)) :
  is_Some (jobs st !! i) ->
  event_loop callback st ((i, error err) :: post)
  = Prog [] (Throw (Thrown err)).
Proof.
  intros Hi. cbn [event_loop]. rewrite deliver_error by done.
  by rewrite (prog_bind_throw _ _ (Thrown err)).
Qed.

(** X17.  An ['error'] event of one of the jobs is thrown from its
    handler with the error it carries: the run ends there, with what had
    been printed up to then, and no event after it is handled. *)
Theorem error_event_ends_the_run {J} (p : promise J)
    (pre : list (nat * uploader_event)) (i : nat) (err : value)
    (post : list (nat * uploader_event)) (st : loop_state) :
  outcome (run p pre) = Ok st ->
  is_Some (jobs st !! i) ->
  run p (pre ++ (i, error err) :: post)
  = Prog (trace (run p pre)) (Throw (Thrown err)).
Proof.
  intros Hpre Hi. destruct p as [|js callback|js reason].
  - cbn in Hpre. injection Hpre as <-. by destruct Hi.
  - unfold run in *.
    rewrite (prog_bind_ext _ _ _ (fun st0 => event_loop_app callback st0 _ _)).
    rewrite <- prog_bind_assoc.
    rewrite (prog_bind_ok _ _ _ Hpre).
    rewrite event_loop_error by done. cbn [trace outcome].
    by rewrite app_nil_r.
  - unfold run in *. rewrite event_loop_app.
    rewrite (prog_bind_ok _ _ _ Hpre).
    rewrite event_loop_error by done. cbn [trace outcome].
    by rewrite app_nil_r.
Qed.

(** X18.  With no job at all (an empty configuration array), the [then]
    callback runs at once, and the events that follow, whatever they are,
    print nothing. *)
Theorem no_job_completes_at_once {J} (callback : list effect)
    (events : list (nat * uploader_event)) :
  run (Promise_all_then (@nil J) callback) events
  = Prog callback (Ok {| jobs := []; settled := true |}).
Proof. by rewrite run_start. Qed.

(** *** Every job ends *)

Lemma forallb_resolved_insert_true (js : list job_state) (i : nat)
    (j' : job_state) :
  forallb resolved js = true -> resolved j' = true ->
  forallb resolved (<[i := j']> js) = true.
Proof.
  revert i. induction js as [|x js IH]; intros [|i] Hall Hres; try done;
    cbn in *; apply andb_true_iff in Hall as [Hx Hjs].
  - by rewrite Hres, Hjs.
  - by rewrite Hx, IH.
Qed.

(** One event other than an error, from a state in which the promise of
    all the jobs is settled exactly when every job has resolved. *)
Lemma deliver_ok (callback : list effect) (st : loop_state)
    (ev : nat * uploader_event) :
  settled st = forallb resolved (jobs st) ->
  (forall err, ev.2 <> error err) ->
  exists st',
    outcome (deliver callback st ev) = Ok st'
    /\ settled st' = forallb resolved (jobs st')
    /\ length (jobs st') = length (jobs st)
    /\ (settled st = true -> settled st' = true)
    /\ (forall i j, jobs st !! i = Some j -> resolved j = true ->
                    exists j', jobs st' !! i = Some j' /\ resolved j' = true)
    /\ (forall i, ev = (i, end_) -> (i < length (jobs st))%nat ->
                  exists j', jobs st' !! i = Some j' /\ resolved j' = true)
    /\ lines (trace (deliver callback st ev))
       = if negb (settled st) && settled st' then lines callback else [].
Proof.
  intros Hst Hev. destruct ev as [k ev]. cbn [snd] in Hev.
  destruct (jobs st !! k) as [jk|] eqn:Hk.
  2:{ rewrite deliver_none by done. exists st. cbn [outcome trace].
      repeat split; try done; eauto.
      - intros i [= <- _] Hi. apply lookup_lt_is_Some_2 in Hi as [? Hi].
        congruence.
      - by destruct (settled st). }
  pose proof (lookup_lt_Some _ _ _ Hk) as Hlt.
  destruct ev as [amount total| |err]; [| |by destruct (Hev err)].
  - rewrite (deliver_progress _ _ _ _ _ _ Hk Hst). eexists.
    cbn [outcome trace]. split; [done|]. cbn [jobs settled].
    repeat split; try done.
    + by rewrite (forallb_resolved_insert _ _ jk).
    + by rewrite length_insert.
    + intros i j Hi Hres. destruct (decide (k = i)) as [->|Hne].
      * rewrite list_lookup_insert_eq by done. eexists. split; [done|].
        cbn. congruence.
      * rewrite list_lookup_insert_ne by done. eauto.
    + rewrite lines_on_progress. by destruct (settled st).
  - rewrite (deliver_end _ _ _ _ Hk). cbn zeta.
    destruct (negb (settled st) && forallb resolved _) eqn:Hfire.
    + apply andb_true_iff in Hfire as [Hs Hall].
      apply negb_true_iff in Hs. eexists.
      cbn [outcome trace]. split; [done|]. cbn [jobs settled].
      repeat split; try done.
      * by rewrite length_insert.
      * intros i j Hi Hres. destruct (decide (k = i)) as [->|Hne].
        -- rewrite list_lookup_insert_eq by done. by eexists.
        -- rewrite list_lookup_insert_ne by done. eauto.
      * intros i [= <-] _. rewrite list_lookup_insert_eq by done. by eexists.
      * by rewrite Hs.
    + eexists. cbn [outcome trace]. split; [done|]. cbn [jobs settled].
      repeat split; try done.
      * destruct (settled st) eqn:Hs; cbn [negb andb] in Hfire; [|done].
        symmetry. by apply forallb_resolved_insert_true.
      * by rewrite length_insert.
      * intros i j Hi Hres. destruct (decide (k = i)) as [->|Hne].
        -- rewrite list_lookup_insert_eq by done. by eexists.
        -- rewrite list_lookup_insert_ne by done. eauto.
      * intros i [= <-] _. rewrite list_lookup_insert_eq by done. by eexists.
      * by destruct (settled st).
Qed.

Lemma event_loop_ok (callback : list effect) (st : loop_state)
    (events : list (nat * uploader_event)) :
  settled st = forallb resolved (jobs st) ->
  Forall (fun ev => forall err, ev.2 <> error err) events ->
  exists st',
    outcome (event_loop callback st events) = Ok st'
    /\ settled st' = forallb resolved (jobs st')
    /\ length (jobs st') = length (jobs st)
    /\ (settled st = true -> settled st' = true)
    /\ (forall i j, jobs st !! i = Some j -> resolved j = true ->
                    exists j', jobs st' !! i = Some j' /\ resolved j' = true)
    /\ (forall i, (i, end_) ∈ events -> (i < length (jobs st))%nat ->
                  exists j', jobs st' !! i = Some j' /\ resolved j' = true)
    /\ lines (trace (event_loop callback st events))
       = if negb (settled st) && settled st' then lines callback else [].
Proof.
  intros Hst Hev. revert st Hst.
  induction Hev as [|ev rest Hne _ IH]; intros st Hst.
  - exists st. cbn [event_loop mret prog_ret outcome trace].
    repeat split; try done; eauto.
    + intros i Hin. by apply elem_of_nil in Hin.
    + by destruct (settled st).
  - destruct (deliver_ok callback st ev Hst Hne)
      as (st1 & Hout & Hst1 & Hlen1 & Hmono1 & Hkeep1 & Hend1 & Hlines1).
    destruct (IH st1 Hst1)
      as (st2 & Hout2 & Hst2 & Hlen2 & Hmono2 & Hkeep2 & Hend2 & Hlines2).
    exists st2. cbn [event_loop]. rewrite (prog_bind_ok _ _ _ Hout).
    cbn [outcome trace]. split; [done|]. split; [done|].
    split; [congruence|]. split; [by auto|]. split; [|split].
    + intros i j Hi Hres. destruct (Hkeep1 i j Hi Hres) as (j1 & Hi1 & Hres1).
      by apply (Hkeep2 i j1).
    + intros i Hin Hi. apply elem_of_cons in Hin as [Heq|Hin].
      * destruct (Hend1 i (eq_sym Heq) Hi) as (j1 & Hi1 & Hres1).
        by apply (Hkeep2 i j1).
      * apply Hend2; [done|]. by rewrite Hlen1.
    + rewrite lines_app, Hlines1, Hlines2.
      destruct (settled st) eqn:Hs, (settled st1) eqn:Hs1,
               (settled st2) eqn:Hs2; cbn [negb andb];
        rewrite ?app_nil_r; try done;
        first [by specialize (Hmono1 eq_refl) | by specialize (Hmono2 eq_refl)].
Qed.

Lemma run_completes {J} (js : list J)
    (callback : list effect) (events : list (nat * uploader_event)) :
  Forall (fun ev => forall err, ev.2 <> error err) events ->
  (forall i, (i < length js)%nat -> (i, end_) ∈ events) ->
  exists st,
    outcome (run (Promise_all_then js callback) events) = Ok st
    /\ settled st = true
    /\ lines (trace (run (Promise_all_then js callback) events))
       = lines callback.
Proof.
  intros Hev Hends. rewrite run_start. destruct js as [|job js].
  - eexists. cbn [outcome trace settled]. done.
  - set (st0 := {| jobs := map (fun _ => {| percent := 0; resolved := false |})
                             (job :: js);
                   settled := false |}).
    destruct (event_loop_ok callback st0 events eq_refl Hev)
      as (st & Hout & Hst & Hlen & _ & _ & Hend & Hlines).
    exists st. split; [done|].
    assert (settled st = true) as Hsettled.
    { rewrite Hst. apply forallb_resolved_true. intros i j Hi.
      pose proof (lookup_lt_Some _ _ _ Hi) as Hlt. rewrite Hlen in Hlt.
      unfold st0 in Hlt. cbn [jobs] in Hlt. rewrite length_map in Hlt.
      destruct (Hend i (Hends i Hlt)) as (j' & Hi' & Hres).
      - unfold st0. cbn [jobs]. by rewrite length_map.
      - congruence. }
    split; [done|]. by rewrite Hlines, Hsettled.
Qed.

(** X16.  When every job emits ['end'] and none emits ['error'], the run
    goes through, the promise of all the jobs settles, and the lines of
    the [then] callback are printed, once. *)
Theorem completion_after_every_job_ends {J} (js : list J)
    (callback : list effect) (events : list (nat * uploader_event)) :
  Forall (fun ev => forall err, ev.2 <> error err) events ->
  (forall i, (i < length js)%nat -> (i, end_) ∈ events) ->
  exists st,
    outcome (run (Promise_all_then js callback) events) = Ok st
    /\ settled st = true
    /\ lines (trace (run (Promise_all_then js callback) events))
       = lines callback.
Proof. apply run_completes. Qed.

(** ** A whole run *)

Section WholeRun.

Variable minimatch : string -> string -> bool.
Variable path_resolve : string -> string.
Variable chalk_red chalk_yellow : string -> string.
Variable Number_toString : float -> string.
Variable servicePath : string.
Variable env : value.

Local Abbreviation sync_params :=
  (ServerlessS3Sync.sync_params minimatch path_resolve Number_toString
     servicePath env).
Local Abbreviation sync :=
  (ServerlessS3Sync.sync minimatch path_resolve chalk_red chalk_yellow
     Number_toString servicePath env).
Local Abbreviation clear := (ServerlessS3Sync.clear chalk_yellow).

Lemma lines_consoleLog (line : string) (tr : list effect) :
  lines (consoleLog line :: tr) = line :: lines tr.
Proof. done. Qed.

Lemma lines_uploads (started : list uploadDirParams) :
  lines (concat (map (fun p => [client; uploadDir p]) started)) = [].
Proof. induction started as [|p l IH]; [done|]. exact IH. Qed.

Lemma lines_deletes (targets : list value) :
  lines (concat (map (fun s => [client; deleteDir (clear_params s)]) targets))
  = [].
Proof. induction targets as [|s l IH]; [done|]. exact IH. Qed.

(** X20.  A [sync] over targets that it accepts (their property reads
    work, they have a [bucketName] and a [localDir], and the [localDir]
    can be printed), whose jobs all end and none of which fails, prints
    three lines in all, dots apart:
    "Syncing directories and S3 prefixes...", an empty line, and
    "Synced.". *)
Theorem sync_prints_three_lines (targets : list value)
    (events : list (nat * uploader_event)) :
  Forall (fun t => accepted t = true) targets ->
  Forall (fun ev => forall err, ev.2 <> error err) events ->
  (forall i, (i < length targets)%nat -> (i, end_) ∈ events) ->
  exists p,
    outcome (sync (VArr targets)) = Ok p
    /\ lines (trace (sync (VArr targets)) ++ trace (run p events))
       = [messagePrefix ++ chalk_yellow "Syncing directories and S3 prefixes...";
          "";
          messagePrefix ++ chalk_yellow "Synced."].
Proof.
  intros Htargets Hev Hends.
  destruct (sync_array_started minimatch path_resolve chalk_red chalk_yellow
              Number_toString servicePath env targets Htargets)
    as (started & Hstarted & ->).
  eexists. split; [done|]. cbn [trace].
  destruct (run_completes started (ServerlessS3Sync.synced chalk_yellow)
              events Hev) as (st & _ & _ & Hlines).
  { intros i Hi. apply Hends. by rewrite (Forall2_length _ _ _ Hstarted). }
  by rewrite lines_app, lines_consoleLog, lines_uploads, Hlines.
Qed.

(** X21.  A [clear] over entries on which its property reads work
    (none is [undefined] or [null], none has a key named
    [hasOwnProperty]), whose jobs all end and none of which fails, prints
    three lines in all, dots apart: "Removing S3 objects...", an empty
    line, and "Removed.". *)
Theorem clear_prints_three_lines (targets : list value)
    (events : list (nat * uploader_event)) :
  Forall (fun s => plain s = true) targets ->
  Forall (fun ev => forall err, ev.2 <> error err) events ->
  (forall i, (i < length targets)%nat -> (i, end_) ∈ events) ->
  exists p,
    outcome (clear (VArr targets)) = Ok p
    /\ lines (trace (clear (VArr targets)) ++ trace (run p events))
       = [messagePrefix ++ chalk_yellow "Removing S3 objects...";
          "";
          messagePrefix ++ chalk_yellow "Removed."].
Proof.
  intros Htargets Hev Hends. rewrite (clear_array_started chalk_yellow targets Htargets).
  eexists. split; [done|]. cbn [trace].
  destruct (run_completes (map clear_params targets)
              (ServerlessS3Sync.removed chalk_yellow) events Hev)
    as (st & _ & _ & Hlines).
  { intros i Hi. apply Hends. by rewrite length_map in Hi. }
  by rewrite lines_app, lines_consoleLog, lines_deletes, Hlines.
Qed.

End WholeRun.

(** ** The properties on the sample configuration *)

(** C1, as the specification words it, fails: with a complete target
    listed before one without [bucketName], [sync] throws, but it has
    already called [uploadDir] for the first. *)
Lemma sync_uploads_before_invalid_target :
  required_present sample_target = true
  /\ required_present sample_target_no_bucket = false
  /\ ServerlessS3Sync.sync sample_minimatch id id id (fun _ => "") "/srv" VUndefined
       (VArr [sample_target; sample_target_no_bucket])
     = Prog [consoleLog "S3 Sync: Syncing directories and S3 prefixes...";
             client;
             uploadDir (sample_params VUndefined)]
            (Throw (Thrown (VStr "Invalid custom.s3Sync"))).
Proof. repeat split. Qed.

Lemma sync_fails_at_first_invalid_target_witness :
  exists jobs,
    Forall2 (fun t j =>
               match j with
               | Started p =>
                   ServerlessS3Sync.sync_params sample_minimatch id
                     (fun _ => "") "/srv" VUndefined t = Ok p
               | Rejected e =>
                   printable (read t "localDir") = false /\ e = TypeError
               end)
            [sample_target; sample_target_unprintable] jobs
    /\ ServerlessS3Sync.sync sample_minimatch id id id (fun _ => "") "/srv" VUndefined
         (VArr ([sample_target; sample_target_unprintable]
                ++ sample_target_no_bucket :: [sample_target]))
       = Prog (consoleLog (messagePrefix
                 ++ id "Syncing directories and S3 prefixes...")
               :: concat (map job_effects jobs))
              (Throw (Thrown (VStr "Invalid custom.s3Sync"))).
Proof.
  apply (sync_fails_at_first_invalid_target
           sample_minimatch id id id (fun _ => "") "/srv" VUndefined
           [sample_target; sample_target_unprintable]
           sample_target_no_bucket [sample_target]).
  - repeat constructor.
  - reflexivity.
  - reflexivity.
Defined.

Lemma getS3Params_skips_other_environments_witness :
  (getS3Params (sample_params (VStr "dev")) "/srv/site/index.html" = Ok None
   /\ "/srv/site/index.html"
      ∉ toUpload (sample_params (VStr "dev")) ["/srv/site/index.html"])
  /\ (getS3Params (sample_params (VStr "prod")) "/srv/site/index.html"
      = Ok (Some sample_merged)
      /\ "/srv/site/index.html"
         ∈ toUpload (sample_params (VStr "prod")) ["/srv/site/index.html"]).
Proof.
  split.
  - destruct (getS3Params_skips_other_environments
                sample_minimatch id (fun _ => "") "/srv" (VStr "dev")
                sample_target (sample_params (VStr "dev"))
                "/srv/site/index.html" sample_merged (VStr "prod")
                eq_refl eq_refl) as (_ & _ & Hup & Hstr).
    split.
    + apply (Hstr "prod" "dev" eq_refl eq_refl). discriminate.
    + intros Hin. apply Hup in Hin as [_ Hin]. discriminate Hin.
  - destruct (getS3Params_skips_other_environments
                sample_minimatch id (fun _ => "") "/srv" (VStr "prod")
                sample_target (sample_params (VStr "prod"))
                "/srv/site/index.html" sample_merged (VStr "prod")
                eq_refl eq_refl) as (_ & _ & Hup & Hstr).
    split.
    + by apply (Hstr "prod" "prod" eq_refl eq_refl).
    + apply Hup. split; [|reflexivity]. apply list_elem_of_In. cbn. auto.
Defined.





Lemma no_configuration_is_a_no_op_witness :
  ServerlessS3Sync.sync sample_minimatch id id id (fun _ => "") "/srv" VUndefined
    VUndefined
  = Prog [consoleLog (messagePrefix ++ id "No configuration found")]
         (Ok Promise_resolve)
  /\ ServerlessS3Sync.clear id VUndefined = Prog [] (Ok Promise_resolve).
Proof.
  apply (no_configuration_is_a_no_op sample_minimatch id id id (fun _ => "")
           "/srv" VUndefined VUndefined).
  reflexivity.
Defined.

(** C8, as the specification words it, fails: a target that asks for ten
    transfers at a time still gets five. *)
Lemma maxAsyncS3_is_not_configurable :
  read sample_target "maxAsyncS3" = VNum 10%float
  /\ ServerlessS3Sync.sync_params sample_minimatch id (fun _ => "") "/srv"
       VUndefined sample_target
     = Ok (sample_params VUndefined)
  /\ maxAsyncS3 (sample_params VUndefined) = 5
  /\ maxAsyncS3 (sample_params VUndefined) <> 10.
Proof. repeat split; done. Qed.

Lemma maxAsyncS3_is_five_witness : maxAsyncS3 (sample_params VUndefined) = 5.
Proof.
  apply (maxAsyncS3_is_five sample_minimatch id (fun _ => "") "/srv"
           VUndefined sample_target).
  reflexivity.
Defined.

(** C9, as the specification words it, fails: an entry that is [null],
    or that has a key named [hasOwnProperty], makes [clear] throw a
    [TypeError] with no [deleteDir] request for it, nor for the entries
    after it. *)
Lemma clear_throws_on_unreadable_entry :
  ServerlessS3Sync.clear id (VArr [VNull; sample_target])
  = Prog [consoleLog "S3 Sync: Removing S3 objects..."] (Throw TypeError)
  /\ ServerlessS3Sync.clear id (VArr [sample_target_shadowed; sample_target])
     = Prog [consoleLog "S3 Sync: Removing S3 objects..."] (Throw TypeError).
Proof. repeat split. Qed.

Lemma clear_does_not_validate_witness :
  ServerlessS3Sync.clear id (VArr [sample_target; sample_target_no_bucket])
  = Prog [consoleLog "S3 Sync: Removing S3 objects...";
          client;
          deleteDir {| DeleteDir.Bucket := VStr "my-bucket";
                       DeleteDir.Prefix := VStr "" |};
          client;
          deleteDir {| DeleteDir.Bucket := VUndefined;
                       DeleteDir.Prefix := VStr "static/" |}]
         (Ok (Promise_all_then
                [{| DeleteDir.Bucket := VStr "my-bucket";
                    DeleteDir.Prefix := VStr "" |};
                 {| DeleteDir.Bucket := VUndefined;
                    DeleteDir.Prefix := VStr "static/" |}]
                [printDot; consoleLog ""; consoleLog "S3 Sync: Removed."]))
  /\ forall entries : list value,
       outcome (ServerlessS3Sync.clear id (VArr entries))
       <> Throw (Thrown (VStr "Invalid custom.s3Sync")).
Proof.
  apply (clear_does_not_validate id [sample_target; sample_target_no_bucket]).
  repeat constructor.
Defined.

Lemma undefined_env_skips_gated_files_witness :
  getS3Params (sample_params VUndefined) "/srv/site/index.html" = Ok None
  /\ forall localFiles,
       "/srv/site/index.html" ∉ toUpload (sample_params VUndefined) localFiles.
Proof.
  apply (undefined_env_skips_gated_files sample_minimatch id (fun _ => "") "/srv"
           sample_target (sample_params VUndefined) "/srv/site/index.html"
           sample_merged (VStr "prod")).
  - reflexivity.
  - reflexivity.
  - reflexivity.
Defined.

(** C3, as the specification words it, fails: a quarter of the total gives
    the decile 30, and rounding down gives 20. *)
Lemma decile_is_not_rounded_down :
  0 < 4
  /\ current_double 1 4 = 30%float
  /\ current 1 4 = 30
  /\ spec_decile 1 4 = 20
  /\ current 1 4 <> spec_decile 1 4
  /\ on_progress 0 1 4 = (30, [printDot]).
Proof. repeat split; try done. Qed.

(** The decile in double precision where the exact quotient is just
    below a half-way point and the double product is on it:
    [475408850291276 / 500430368727659 * 10] is the double 9.5 (the
    fraction below is 19/2), and the decile is 100. *)
Lemma decile_is_nearest_witness :
  double_fraction (475408850291276 / 500430368727659 * 10)%float
  = Some (5348024557502464, 562949953421312)
  /\ 5348024557502464 * 2 = 19 * 562949953421312
  /\ 20 * 475408850291276 < 19 * 500430368727659
  /\ current_double 475408850291276 500430368727659 = 100%float.
Proof.
  split; [reflexivity|]. split; [reflexivity|]. split; [reflexivity|].
  destruct (decile_is_nearest 475408850291276 500430368727659) as [Hfinite _].
  destruct (Hfinite (5348024557502464, 562949953421312) eq_refl)
    as (_ & k & _ & Hunique & Hcurrent).
  rewrite Hcurrent, <- (Hunique 10 ltac:(cbn; lia)). reflexivity.
Defined.
Lemma sync_params_accepts_iff_witness :
  accepted sample_target = true
  /\ ServerlessS3Sync.sync_job sample_minimatch id (fun _ => "") "/srv"
       VUndefined sample_target
     = Prog [client; uploadDir (sample_params VUndefined)]
            (Ok (Started (sample_params VUndefined)))
  /\ ServerlessS3Sync.sync_job sample_minimatch id (fun _ => "") "/srv"
       VUndefined sample_target_shadowed
     = Prog [] (Throw TypeError)
  /\ ServerlessS3Sync.sync_job sample_minimatch id (fun _ => "") "/srv"
       VUndefined sample_target_no_bucket
     = Prog [] (Throw (Thrown (VStr "Invalid custom.s3Sync")))
  /\ ServerlessS3Sync.sync_job sample_minimatch id (fun _ => "") "/srv"
       VUndefined sample_target_unprintable
     = Prog [] (Ok (Rejected TypeError)).
Proof.
  destruct (sync_params_accepts_iff sample_minimatch id (fun _ => "") "/srv"
              VUndefined sample_target) as (Haccepted & Hstarted & _).
  destruct (sync_params_accepts_iff sample_minimatch id (fun _ => "") "/srv"
              VUndefined sample_target_shadowed) as (_ & _ & Hunreadable & _).
  destruct (sync_params_accepts_iff sample_minimatch id (fun _ => "") "/srv"
              VUndefined sample_target_no_bucket) as (_ & _ & _ & Hinvalid & _).
  destruct (sync_params_accepts_iff sample_minimatch id (fun _ => "") "/srv"
              VUndefined sample_target_unprintable) as (_ & _ & _ & _ & Hrejected).
  split; [apply Haccepted; by eexists|].
  split; [by apply Hstarted|].
  split; [by apply Hunreadable|].
  split; [by apply Hinvalid|by apply Hrejected].
Defined.

Lemma sync_params_defaults_witness :
  s3Params (sample_params VUndefined)
  = {| S3Params.Bucket := read sample_target "bucketName";
       S3Params.Prefix := VStr "";
       S3Params.ACL := VStr "private" |}
  /\ followSymlinks (sample_params VUndefined) = VBool false
  /\ deleteRemoved (sample_params VUndefined) = VBool true
  /\ defaultContentType (sample_params VUndefined) = None.
Proof.
  apply (sync_params_defaults sample_minimatch id (fun _ => "") "/srv"
           VUndefined sample_target);
    reflexivity.
Defined.

Lemma sync_params_own_settings_witness :
  (has_own sample_target_explicit "bucketPrefix" = true ->
   S3Params.Prefix (s3Params sample_params_explicit)
   = read sample_target_explicit "bucketPrefix")
  /\ (has_own sample_target_explicit "acl" = true ->
      S3Params.ACL (s3Params sample_params_explicit)
      = read sample_target_explicit "acl")
  /\ (has_own sample_target_explicit "followSymlinks" = true ->
      followSymlinks sample_params_explicit
      = read sample_target_explicit "followSymlinks")
  /\ (has_own sample_target_explicit "deleteRemoved" = true ->
      deleteRemoved sample_params_explicit
      = read sample_target_explicit "deleteRemoved")
  /\ (forall v, defaultContentType sample_params_explicit = Some v <->
                v = read sample_target_explicit "defaultContentType"
                /\ v <> VUndefined)
  /\ S3Params.Bucket (s3Params sample_params_explicit)
     = read sample_target_explicit "bucketName"
  /\ (forall dir, read sample_target_explicit "localDir" = VStr dir ->
                  localDir sample_params_explicit = "/srv" ++ "/" ++ dir).
Proof.
  apply (sync_params_own_settings sample_minimatch id (fun _ => "") "/srv"
           VUndefined sample_target_explicit).
  reflexivity.
Defined.

Lemma sync_starts_every_target_witness :
  exists started,
    Forall2 (fun t p =>
               ServerlessS3Sync.sync_params sample_minimatch id (fun _ => "")
                 "/srv" VUndefined t = Ok p)
            [sample_target; sample_target] started
    /\ ServerlessS3Sync.sync sample_minimatch id id id (fun _ => "") "/srv"
         VUndefined (VArr [sample_target; sample_target])
       = Prog (consoleLog (messagePrefix
                 ++ id "Syncing directories and S3 prefixes...")
               :: concat (map (fun p => [client; uploadDir p]) started))
              (Ok (Promise_all_then started (ServerlessS3Sync.synced id))).
Proof.
  apply (sync_starts_every_target sample_minimatch id id id (fun _ => "")
           "/srv" VUndefined [sample_target; sample_target]).
  repeat constructor.
Defined.

Lemma clear_stops_at_unreadable_entry_witness :
  ServerlessS3Sync.clear id
    (VArr ([sample_target_no_bucket] ++ sample_target_shadowed :: [sample_target]))
  = Prog (consoleLog (messagePrefix ++ id "Removing S3 objects...")
          :: concat (map (fun t => [client; deleteDir (clear_params t)])
                       [sample_target_no_bucket]))
         (Throw TypeError).
Proof.
  apply (clear_stops_at_unreadable_entry id [sample_target_no_bucket]
           sample_target_shadowed [sample_target]).
  - repeat constructor.
  - reflexivity.
Defined.

Lemma clear_targets_what_sync_uploads_witness :
  ServerlessS3Sync.clear_job sample_target
  = Prog [client; deleteDir (clear_params sample_target)]
         (Ok (clear_params sample_target))
  /\ DeleteDir.Bucket (clear_params sample_target)
     = S3Params.Bucket (s3Params (sample_params VUndefined))
  /\ DeleteDir.Prefix (clear_params sample_target)
     = S3Params.Prefix (s3Params (sample_params VUndefined)).
Proof.
  apply (clear_targets_what_sync_uploads sample_minimatch id (fun _ => "")
           "/srv" VUndefined sample_target).
  reflexivity.
Defined.

Lemma getS3Params_without_matching_rule_witness :
  ServerlessS3Sync.getS3Params_of sample_minimatch id (VStr "dev")
    sample_target_no_bucket "/srv/assets" "/srv/assets/logo.png"
  = Ok (Some empty_object)
  /\ ServerlessS3Sync.getS3Params_of sample_minimatch id (VStr "dev")
       sample_target "/srv/site" "/srv/site/main.css"
     = Ok (Some empty_object).
Proof.
  split.
  - apply (getS3Params_without_matching_rule sample_minimatch id (VStr "dev")
             sample_target_no_bucket "/srv/assets" "/srv/assets/logo.png");
      reflexivity.
  - apply (getS3Params_without_matching_rule sample_minimatch id (VStr "dev")
             sample_target "/srv/site" "/srv/site/main.css" eq_refl)
      with (rules := (own_props sample_rules).*2);
      [reflexivity|repeat constructor].
Defined.

Lemma getS3Params_ignores_other_rules_witness :
  ServerlessS3Sync.getS3Params_of sample_minimatch id (VStr "dev")
    sample_target "/srv/site" "/srv/site/main.css"
  = ServerlessS3Sync.getS3Params_of sample_minimatch id (VStr "dev")
      (VObj [("params", VArr [])]) "/srv/site" "/srv/site/main.css".
Proof.
  apply (getS3Params_ignores_other_rules sample_minimatch id (VStr "dev")
           sample_target (VObj [("params", VArr [])])
           "/srv/site" "/srv/site/main.css" (own_props sample_rules).*2).
  - reflexivity.
  - reflexivity.
  - reflexivity.
  - reflexivity.
  - repeat constructor.
Defined.

Lemma getS3Params_throws_iff_nullish_rule_witness :
  ServerlessS3Sync.getS3Params_of sample_minimatch id (VStr "dev")
    (VObj [("params", VArr [VObj [("*.css", VObj [])]; VNull])])
    "/srv/site" "/srv/site/main.css"
  = Throw TypeError
  /\ exists answer,
       ServerlessS3Sync.getS3Params_of sample_minimatch id (VStr "dev")
         sample_target "/srv/site" "/srv/site/main.css"
       = Ok answer.
Proof.
  split.
  - apply (getS3Params_throws_iff_nullish_rule sample_minimatch id (VStr "dev")
             (VObj [("params", VArr [VObj [("*.css", VObj [])]; VNull])])
             "/srv/site" "/srv/site/main.css"
             [VObj [("*.css", VObj [])]; VNull] eq_refl eq_refl).
    apply Exists_cons_tl, Exists_cons_hd. reflexivity.
  - apply (getS3Params_throws_iff_nullish_rule sample_minimatch id (VStr "dev")
             sample_target "/srv/site" "/srv/site/main.css"
             (own_props sample_rules).*2 eq_refl eq_refl).
    repeat constructor.
Defined.

Lemma last_truthy_OnlyForEnv_gates_witness :
  VStr "prod" = VStr "prod"
  /\ ServerlessS3Sync.getS3Params_of sample_minimatch id (VStr "dev")
       sample_target "/srv/site" "/srv/site/index.html"
     = if strict_equals (VStr "prod") (VStr "dev")
       then Ok (Some sample_merged)
       else Ok None.
Proof.
  apply (last_truthy_OnlyForEnv_gates sample_minimatch id (VStr "dev")
           sample_target "/srv/site" "/srv/site/index.html"
           [VObj [("*.html", VObj [("ContentType", VStr "text/html")])]]
           (VObj [("*.html",
                   VObj [("ContentType", VStr "text/html; charset=utf-8");
                         ("OnlyForEnv", VStr "prod")])])
           []).
  - reflexivity.
  - reflexivity.
  - reflexivity.
  - reflexivity.
  - reflexivity.
  - constructor.
Defined.

Lemma rule_extra_keys_ignored_witness :
  ServerlessS3Sync.forEach_param sample_minimatch id
    "/srv/site/index.html" "/srv/site" (empty_object, VUndefined)
    (VObj [("*.html", VObj [("ContentType", VStr "text/html")]);
           ("*.css", VObj [("ContentType", VStr "text/css")])])
  = ServerlessS3Sync.forEach_param sample_minimatch id
      "/srv/site/index.html" "/srv/site" (empty_object, VUndefined)
      (VObj [("*.html", VObj [("ContentType", VStr "text/html")])]).
Proof.
  apply (rule_extra_keys_ignored sample_minimatch id
           "/srv/site/index.html" "/srv/site" (empty_object, VUndefined) "*.html"
           (VObj [("ContentType", VStr "text/html")])
           [("*.css", VObj [("ContentType", VStr "text/css")])]).
  reflexivity.
Defined.

Lemma at_most_ten_dots_witness :
  (length (on_progress_all 0 [(1, 4); (2, 4); (4, 4)]%Z).2 <= 10)%nat.
Proof.
  apply (at_most_ten_dots [(1, 4); (2, 4); (4, 4)]).
  repeat constructor; cbn; lia.
Defined.

Lemma full_progress_reaches_100_witness :
  100 ∈ ticks 0 [(1, 4); (4, 4)].
Proof.
  apply (full_progress_reaches_100 4 [(1, 4); (4, 4)]).
  - repeat constructor; cbn; lia.
  - lia.
  - apply list_elem_of_In. cbn. auto.
Defined.

Lemma completion_waits_for_every_job_witness :
  lines (trace (run (Promise_all_then [tt; tt] [printDot; consoleLog "done"])
                  [(0%nat, progress 1 2); (0%nat, end_)])) = []
  /\ forall st,
       outcome (run (Promise_all_then [tt; tt] [printDot; consoleLog "done"])
                  [(0%nat, progress 1 2); (0%nat, end_)]) = Ok st ->
       settled st = false.
Proof.
  apply (completion_waits_for_every_job [tt; tt]
           [printDot; consoleLog "done"]
           [(0%nat, progress 1 2); (0%nat, end_)] 1).
  - cbn. lia.
  - intros Hin. apply list_elem_of_In in Hin. cbn in Hin.
    destruct Hin as [Hin|[Hin|[]]]; discriminate Hin.
Defined.

Lemma completion_after_every_job_ends_witness :
  exists st,
    outcome (run (Promise_all_then [tt] [printDot; consoleLog "done"])
               [(0%nat, progress 1 2); (0%nat, end_)]) = Ok st
    /\ settled st = true
    /\ lines (trace (run (Promise_all_then [tt] [printDot; consoleLog "done"])
                       [(0%nat, progress 1 2); (0%nat, end_)]))
       = lines [printDot; consoleLog "done"].
Proof.
  apply (completion_after_every_job_ends [tt] [printDot; consoleLog "done"]
           [(0%nat, progress 1 2); (0%nat, end_)]).
  - repeat constructor; intros err; discriminate.
  - intros i Hi. cbn in Hi. assert (i = 0%nat) as -> by lia.
    apply list_elem_of_In. cbn. auto.
Defined.

Lemma error_event_ends_the_run_witness :
  run (Promise_all_then [tt] [printDot; consoleLog "done"])
    ([(0%nat, progress 1 2)] ++ (0%nat, error (VStr "AccessDenied"))
                                :: [(0%nat, end_)])
  = Prog (trace (run (Promise_all_then [tt] [printDot; consoleLog "done"])
                   [(0%nat, progress 1 2)]))
         (Throw (Thrown (VStr "AccessDenied"))).
Proof.
  apply (error_event_ends_the_run
           (Promise_all_then [tt] [printDot; consoleLog "done"])
           [(0%nat, progress 1 2)] 0 (VStr "AccessDenied") [(0%nat, end_)]
           {| jobs := [{| percent := 50; resolved := false |}];
              settled := false |}).
  - reflexivity.
  - by eexists.
Defined.

Lemma sync_prints_three_lines_witness :
  exists p,
    outcome (ServerlessS3Sync.sync sample_minimatch id id id (fun _ => "")
               "/srv" VUndefined (VArr [sample_target])) = Ok p
    /\ lines (trace (ServerlessS3Sync.sync sample_minimatch id id id
                       (fun _ => "") "/srv" VUndefined (VArr [sample_target]))
              ++ trace (run p [(0%nat, progress 4 4); (0%nat, end_)]))
       = [messagePrefix ++ id "Syncing directories and S3 prefixes...";
          "";
          messagePrefix ++ id "Synced."].
Proof.
  apply (sync_prints_three_lines sample_minimatch id id id (fun _ => "")
           "/srv" VUndefined [sample_target]
           [(0%nat, progress 4 4); (0%nat, end_)]).
  - repeat constructor.
  - repeat constructor; intros err; discriminate.
  - intros i Hi. cbn in Hi. assert (i = 0%nat) as -> by lia.
    apply list_elem_of_In. cbn. auto.
Defined.

Lemma clear_prints_three_lines_witness :
  exists p,
    outcome (ServerlessS3Sync.clear id (VArr [sample_target_no_bucket])) = Ok p
    /\ lines (trace (ServerlessS3Sync.clear id (VArr [sample_target_no_bucket]))
              ++ trace (run p [(0%nat, end_)]))
       = [messagePrefix ++ id "Removing S3 objects...";
          "";
          messagePrefix ++ id "Removed."].
Proof.
  apply (clear_prints_three_lines id [sample_target_no_bucket]
           [(0%nat, end_)]).
  - repeat constructor.
  - repeat constructor; intros err; discriminate.
  - intros i Hi. cbn in Hi. assert (i = 0%nat) as -> by lia.
    apply list_elem_of_In. cbn. auto.
Defined.


Lemma double_ticks_strictly_increase_witness :
  ticks_double 0 [(1, 4); (1, 4); (475408850291276, 500430368727659);
                  (3, 4); (5, 0)]%float
  = [30; 100]%float
  /\ NoDup (ticks_double 0 [(1, 4); (1, 4); (475408850291276, 500430368727659);
                            (3, 4); (5, 0)]%float)
  /\ (on_progress_double_all 0
        [(1, 4); (1, 4); (475408850291276, 500430368727659);
         (3, 4); (5, 0)]%float).2
     = [printDot; printDot].
Proof.
  destruct (double_ticks_strictly_increase
              [(1, 4); (1, 4); (475408850291276, 500430368727659);
               (3, 4); (5, 0)]%float) as (_ & Hnodup & _ & Hdots & _).
  split; [reflexivity|]. split; [exact Hnodup|exact Hdots].
Defined.
